(** * A bounded blocking queue (monitor): lab.c

    Shallow embedding of [src/lab.c] and the properties of its
    operations [queue_init], [queue_destroy], [enqueue], [dequeue],
    [queue_shutdown], [is_empty] and [is_shutdown].

    Modelling conventions.
    - A [queue_t] is the address of a [struct queue]; the heap maps live
      addresses to struct values.  [NULL] is address 0.
    - The [void **buffer] array is owned by its struct and never escapes,
      so it is kept inline as a list of [capacity] pointer cells.
    - C [int] arithmetic is arithmetic on [Z] that is undefined outside
      the 32-bit signed range; [%] is the truncating remainder.  [size_t]
      is taken to be 64 bits wide, so the byte count of the buffer
      allocation does not wrap.
    - Every function body runs with the queue's mutex held from
      [pthread_mutex_lock] to [pthread_mutex_unlock] or to a
      [pthread_cond_wait], so one call is one atomic step.  A call that
      reaches [pthread_cond_wait] has outcome [Waits]: the thread sleeps
      with the lock released; when woken it evaluates the loop condition
      again, which is what calling the model again on the then-current
      heap computes.
    - Lock, signal and broadcast calls are recorded in a trace of
      events. *)

From stdpp Require Import base gmap list strings relations.
From Stdlib Require Import ZArith Lia.

Open Scope Z_scope.

(** ** C integers and pointers *)

Definition INT_MIN : Z := - 2 ^ 31.
Definition INT_MAX : Z := 2 ^ 31 - 1.

Definition in_int (z : Z) : bool := (INT_MIN <=? z) && (z <=? INT_MAX).

(** [a + b] on [int]; signed overflow is undefined. *)
Definition int_add (a b : Z) : option Z :=
  if in_int (a + b) then Some (a + b) else None.

(** [a - b] on [int]. *)
Definition int_sub (a b : Z) : option Z :=
  if in_int (a - b) then Some (a - b) else None.

(** [a % b] on [int]: truncating remainder, undefined for [b = 0] and for
    [INT_MIN % -1]. *)
Definition int_rem (a b : Z) : option Z :=
  if b =? 0 then None
  else if (a =? INT_MIN) && (b =? -1) then None
  else Some (Z.rem a b).

(** Untyped item handles ([void *]). *)
Abbreviation ptr := Z.
Definition NULL : Z := 0.

(** [a[i]] as an rvalue. *)
Definition array_load (a : list ptr) (i : Z) : option ptr :=
  if 0 <=? i then a !! Z.to_nat i else None.

(** [a[i] = v]. *)
Definition array_store (a : list ptr) (i : Z) (v : ptr) : option (list ptr) :=
  if (0 <=? i) && (i <? Z.of_nat (length a))
  then Some (<[Z.to_nat i := v]> a) else None.

(** ** The queue structure *)

Record queue : Type := mk_queue {
  buffer : list ptr;
  capacity : Z;
  size : Z;
  front : Z;
  rear : Z;
  is_shutdown_flag : bool
}.

(** A queue handle ([struct queue *]). *)
Abbreviation queue_t := Z.

Abbreviation heap := (gmap Z queue).

Inductive cond : Type := not_full | not_empty.

Inductive event : Type :=
| MutexLock (q : queue_t)
| MutexUnlock (q : queue_t)
| CondSignal (q : queue_t) (c : cond)
| CondBroadcast (q : queue_t) (c : cond)
| CondDestroy (q : queue_t) (c : cond)
| MutexDestroy (q : queue_t)
| Perror (msg : string).

(** ** Outcomes and the monad of calls *)

Inductive outcome (A : Type) : Type :=
| Returns (v : A) (h : heap) (tr : list event)
| Waits (q : queue_t) (c : cond) (h : heap) (tr : list event)
| Aborts
| Undefined.

Arguments Returns {A} v h tr.
Arguments Waits {A} q c h tr.
Arguments Aborts {A}.
Arguments Undefined {A}.

Definition M (A : Type) : Type := heap -> outcome A.

Definition ret {A : Type} (v : A) : M A := fun h => Returns v h [].

Definition bind {A B : Type} (m : M A) (f : A -> M B) : M B := fun h =>
  match m h with
  | Returns v h1 t1 =>
      match f v h1 with
      | Returns w h2 t2 => Returns w h2 (t1 ++ t2)
      | Waits q c h2 t2 => Waits q c h2 (t1 ++ t2)
      | Aborts => Aborts
      | Undefined => Undefined
      end
  | Waits q c h1 t1 => Waits q c h1 t1
  | Aborts => Aborts
  | Undefined => Undefined
  end.

Declare Scope call_scope.
Delimit Scope call_scope with call.
Notation "x <- m ;; k" := (bind m (fun x => k))
  (at level 100, m at next level, right associativity) : call_scope.
Notation "m ;; k" := (bind m (fun _ => k))
  (at level 100, right associativity) : call_scope.
Open Scope call_scope.

(** Reading [*q]; a dangling handle is undefined behaviour. *)
Definition deref (q : queue_t) : M queue := fun h =>
  match h !! q with
  | Some s => Returns s h []
  | None => Undefined
  end.

(** Writing the fields of [*q]. *)
Definition assign (q : queue_t) (s : queue) : M unit := fun h =>
  match h !! q with
  | Some _ => Returns tt (<[q := s]> h) []
  | None => Undefined
  end.

(** [free(q->buffer); free(q)]. *)
Definition free (q : queue_t) : M unit := fun h =>
  match h !! q with
  | Some _ => Returns tt (delete q h) []
  | None => Undefined
  end.

Definition emit (e : event) : M unit := fun h => Returns tt h [e].

(** An arithmetic or array operation whose failure is undefined behaviour. *)
Definition defined {A : Type} (o : option A) : M A := fun h =>
  match o with
  | Some v => Returns v h []
  | None => Undefined
  end.

Definition pthread_mutex_lock (q : queue_t) : M unit := emit (MutexLock q).
Definition pthread_mutex_unlock (q : queue_t) : M unit := emit (MutexUnlock q).
Definition pthread_cond_signal (q : queue_t) (c : cond) : M unit :=
  emit (CondSignal q c).
Definition pthread_cond_broadcast (q : queue_t) (c : cond) : M unit :=
  emit (CondBroadcast q c).
Definition pthread_cond_wait {A : Type} (q : queue_t) (c : cond) : M A :=
  fun h => Waits q c h [].

(** ** queue_init *)

(** What the environment answers to one construction attempt: whether the
    two [malloc] calls succeed, what the fresh buffer cells hold, and the
    return codes of the three pthread initialisers. *)
Record resources : Type := mk_resources {
  malloc_queue_ok : bool;
  malloc_buffer_ok : bool;
  junk : nat -> ptr;
  mutex_init_rc : Z;
  cond_not_full_rc : Z;
  cond_not_empty_rc : Z
}.

(** The address handed out by a successful [malloc]: not [NULL] and not
    live. *)
Definition malloc_addr (h : heap) : Z :=
  fresh (({[NULL]} : gset Z) ∪ dom h).

(** [assert(capacity > 0)] is taken with assertions enabled.  On each
    failure path the struct and buffer allocated so far are freed again,
    so the heap is returned as it was found. *)
Definition queue_init (r : resources) (capacity : Z) : M queue_t := fun h =>
  if negb (0 <? capacity) then Aborts
  else
    let q := malloc_addr h in
    if negb (malloc_queue_ok r) then
      Returns NULL h [Perror "Failed to allocate memory for queue"]
    else if negb (malloc_buffer_ok r) then
      Returns NULL h [Perror "Failed to allocate memory for queue buffer"]
    else if negb (mutex_init_rc r =? 0) then
      Returns NULL h [Perror "Failed to initialize mutex"]
    else if negb (cond_not_full_rc r =? 0) then
      Returns NULL h
        [Perror "Failed to initialize condition variable"; MutexDestroy q]
    else if negb (cond_not_empty_rc r =? 0) then
      Returns NULL h
        [Perror "Failed to initialize condition variable";
         CondDestroy q not_full; MutexDestroy q]
    else
      Returns q
        (<[q := {| buffer := junk r <$> seq 0 (Z.to_nat capacity);
                   capacity := capacity;
                   size := 0;
                   front := 0;
                   rear := -1;
                   is_shutdown_flag := false |}]> h)
        [].

(** ** queue_shutdown *)

Definition queue_shutdown (q : queue_t) : M unit :=
  if q =? NULL then ret tt
  else
    pthread_mutex_lock q;;
    s <- deref q;;
    assign q {| buffer := buffer s; capacity := capacity s; size := size s;
                front := front s; rear := rear s;
                is_shutdown_flag := true |};;
    pthread_cond_broadcast q not_empty;;
    pthread_cond_broadcast q not_full;;
    pthread_mutex_unlock q.

(** ** queue_destroy *)

Definition queue_destroy (q : queue_t) : M unit :=
  if q =? NULL then ret tt
  else
    queue_shutdown q;;
    pthread_mutex_lock q;;
    pthread_cond_broadcast q not_full;;
    pthread_cond_broadcast q not_empty;;
    pthread_mutex_unlock q;;
    emit (CondDestroy q not_empty);;
    emit (CondDestroy q not_full);;
    emit (MutexDestroy q);;
    free q.

(** ** enqueue *)

Definition enqueue (q : queue_t) (data : ptr) : M unit :=
  if q =? NULL then ret tt
  else
    pthread_mutex_lock q;;
    s <- deref q;;
    if (size s =? capacity s) && negb (is_shutdown_flag s) then
      pthread_cond_wait q not_full
    else if is_shutdown_flag s then
      pthread_mutex_unlock q
    else
      r1 <- defined (int_add (rear s) 1);;
      r <- defined (int_rem r1 (capacity s));;
      b <- defined (array_store (buffer s) r data);;
      n <- defined (int_add (size s) 1);;
      assign q {| buffer := b; capacity := capacity s; size := n;
                  front := front s; rear := r;
                  is_shutdown_flag := is_shutdown_flag s |};;
      pthread_cond_signal q not_empty;;
      pthread_mutex_unlock q.

(** ** dequeue *)

Definition dequeue (q : queue_t) : M ptr :=
  if q =? NULL then ret NULL
  else
    pthread_mutex_lock q;;
    s <- deref q;;
    if (size s =? 0) && negb (is_shutdown_flag s) then
      pthread_cond_wait q not_empty
    else if size s =? 0 then
      pthread_mutex_unlock q;;
      ret NULL
    else
      data <- defined (array_load (buffer s) (front s));;
      f1 <- defined (int_add (front s) 1);;
      f <- defined (int_rem f1 (capacity s));;
      n <- defined (int_sub (size s) 1);;
      assign q {| buffer := buffer s; capacity := capacity s; size := n;
                  front := f; rear := rear s;
                  is_shutdown_flag := is_shutdown_flag s |};;
      pthread_cond_signal q not_full;;
      pthread_mutex_unlock q;;
      ret data.

(** ** is_empty, is_shutdown *)

Definition is_empty (q : queue_t) : M bool :=
  if q =? NULL then ret true
  else
    pthread_mutex_lock q;;
    s <- deref q;;
    let empty := size s =? 0 in
    pthread_mutex_unlock q;;
    ret empty.

Definition is_shutdown (q : queue_t) : M bool :=
  if q =? NULL then ret true
  else
    pthread_mutex_lock q;;
    s <- deref q;;
    let shutdown := is_shutdown_flag s in
    pthread_mutex_unlock q;;
    ret shutdown.

(** ** Sequences of calls *)

(** [enqueue] called once per item, in order. *)
Fixpoint enqueue_all (q : queue_t) (items : list ptr) : M unit :=
  match items with
  | [] => ret tt
  | x :: rest => enqueue q x;; enqueue_all q rest
  end.

(** [dequeue] called [n] times; the results in call order. *)
Fixpoint dequeue_n (q : queue_t) (n : nat) : M (list ptr) :=
  match n with
  | O => ret []
  | S k => x <- dequeue q;; xs <- dequeue_n q k;; ret (x :: xs)
  end.

(** ** Reachable heaps *)

(** One API call by some thread that runs to its return.  A call that
    blocks leaves the heap as it found it (see [waits_heap_unchanged]),
    so it contributes no step.  [queue_destroy] holds the lock twice and
    then frees; calls of other threads that slip in after its first
    critical section are steps taken after a [queue_shutdown] step and
    before the [queue_destroy] step, whose own shutdown then changes
    nothing. *)
Inductive step : heap -> heap -> Prop :=
| step_init r cap h q h' tr :
    in_int cap = true ->
    queue_init r cap h = Returns q h' tr -> step h h'
| step_destroy q h h' tr :
    queue_destroy q h = Returns tt h' tr -> step h h'
| step_enqueue q data h h' tr :
    enqueue q data h = Returns tt h' tr -> step h h'
| step_dequeue q h x h' tr :
    dequeue q h = Returns x h' tr -> step h h'
| step_shutdown q h h' tr :
    queue_shutdown q h = Returns tt h' tr -> step h h'
| step_is_empty q h b h' tr :
    is_empty q h = Returns b h' tr -> step h h'
| step_is_shutdown q h b h' tr :
    is_shutdown q h = Returns b h' tr -> step h h'.

Definition reachable (h : heap) : Prop := rtc step ∅ h.

(** ** Invariants and the abstract contents *)

(** The occupancy bound on its own. *)
Definition count_ok (s : queue) : Prop := 0 <= size s <= capacity s.

(** The representation invariant of a live queue. *)
Record wf (s : queue) : Prop := mk_wf {
  wf_capacity : 0 < capacity s <= INT_MAX;
  wf_buffer : Z.of_nat (length (buffer s)) = capacity s;
  wf_size : count_ok s;
  wf_front : 0 <= front s < capacity s;
  wf_rear : -1 <= rear s < capacity s;
  wf_tail : (rear s + 1) `mod` capacity s = (front s + size s) `mod` capacity s
}.

(** The [i]-th oldest buffered item. *)
Definition slot (s : queue) (i : nat) : ptr :=
  default NULL (buffer s !! Z.to_nat ((front s + Z.of_nat i) `mod` capacity s)).

(** The buffered items, oldest first. *)
Definition contents (s : queue) : list ptr :=
  slot s <$> seq 0 (Z.to_nat (size s)).

(** The struct after a successful [enqueue] of [data]. *)
Definition pushed (s : queue) (data : ptr) : queue :=
  let r := (front s + size s) `mod` capacity s in
  {| buffer := <[Z.to_nat r := data]> (buffer s); capacity := capacity s;
     size := size s + 1; front := front s; rear := r;
     is_shutdown_flag := is_shutdown_flag s |}.

(** The struct after a successful [dequeue]. *)
Definition popped (s : queue) : queue :=
  {| buffer := buffer s; capacity := capacity s; size := size s - 1;
     front := (front s + 1) `mod` capacity s; rear := rear s;
     is_shutdown_flag := is_shutdown_flag s |}.

(** The struct after [queue_shutdown]. *)
Definition closed (s : queue) : queue :=
  {| buffer := buffer s; capacity := capacity s; size := size s;
     front := front s; rear := rear s; is_shutdown_flag := true |}.

(** The struct a successful [queue_init] builds. *)
Definition initial (r : resources) (cap : Z) : queue :=
  {| buffer := junk r <$> seq 0 (Z.to_nat cap); capacity := cap; size := 0;
     front := 0; rear := -1; is_shutdown_flag := false |}.

(** The struct-level transitions of the three mutating critical
    sections, with the values the C expressions compute. *)
Inductive moves : queue -> queue -> Prop :=
| moves_enqueue s data :
    is_shutdown_flag s = false -> size s <> capacity s ->
    0 <= Z.rem (rear s + 1) (capacity s) < Z.of_nat (length (buffer s)) ->
    moves s
      {| buffer := <[Z.to_nat (Z.rem (rear s + 1) (capacity s)) := data]>
                     (buffer s);
         capacity := capacity s; size := size s + 1; front := front s;
         rear := Z.rem (rear s + 1) (capacity s);
         is_shutdown_flag := false |}
| moves_dequeue s :
    size s <> 0 ->
    moves s
      {| buffer := buffer s; capacity := capacity s; size := size s - 1;
         front := Z.rem (front s + 1) (capacity s); rear := rear s;
         is_shutdown_flag := is_shutdown_flag s |}
| moves_shutdown s :
    moves s (closed s).

(** A step of some thread after which the queue at [q] is still live. *)
Definition step_keeping (q : queue_t) (h h' : heap) : Prop :=
  step h h' /\ is_Some (h' !! q).

(** A queue that is shut down and empty. *)
Definition drained (s : queue) : Prop :=
  size s = 0 /\ is_shutdown_flag s = true.

(** Whether the environment grants every resource of one construction. *)
Definition all_granted (r : resources) : bool :=
  malloc_queue_ok r && malloc_buffer_ok r && (mutex_init_rc r =? 0)
  && (cond_not_full_rc r =? 0) && (cond_not_empty_rc r =? 0).

(** [queue_shutdown] called [n] times in a row. *)
Fixpoint shutdown_times (q : queue_t) (n : nat) : M unit :=
  match n with
  | O => ret tt
  | S k => queue_shutdown q;; shutdown_times q k
  end.

(** An environment that grants every resource; fresh cells hold 7. *)
Definition granted : resources := mk_resources true true (fun _ => 7) 0 0 0.

(** The heap after [queue_init(2)] in an empty heap. *)
Definition fresh_heap : heap := <[1 := initial granted 2]> ∅.

(** The heap after [queue_init(1)], [enqueue(q, NULL)] and
    [queue_shutdown(q)]. *)
Definition null_item_heap : heap :=
  <[1 := {| buffer := [NULL]; capacity := 1; size := 1; front := 0;
            rear := 0; is_shutdown_flag := true |}]> ∅.

(** The heap after [queue_init(2)], [enqueue(q, 11)] and
    [enqueue(q, 12)]: a full queue that is not shut down. *)
Definition full_heap : heap :=
  <[1 := {| buffer := [11; 12]; capacity := 2; size := 2; front := 0;
            rear := 1; is_shutdown_flag := false |}]> ∅.

(** Two live queues: [full_heap] and a second, empty queue of capacity 1
    at address 2. *)
Definition pair_heap : heap := <[2 := initial granted 1]> full_heap.

(** A trace that takes the mutex of [q] first, releases it last, and
    does neither in between. *)
Definition locked_once (q : queue_t) (tr : list event) : Prop :=
  exists mid,
    tr = MutexLock q :: (mid ++ [MutexUnlock q]) /\
    (MutexLock q ∉ mid) /\ (MutexUnlock q ∉ mid).

(** The heap after [queue_init(2)], [enqueue(q, 11)], [enqueue(q, 12)],
    [dequeue(q)] and [enqueue(q, 13)]: a full queue whose items wrap
    around the end of the buffer, oldest item 12 at index 1. *)
Definition wrapped_heap : heap :=
  <[1 := {| buffer := [13; 12]; capacity := 2; size := 2; front := 1;
            rear := 0; is_shutdown_flag := false |}]> ∅.

(** [wrapped_heap] after [queue_shutdown(q)]. *)
Definition shut_heap : heap :=
  <[1 := {| buffer := [13; 12]; capacity := 2; size := 2; front := 1;
            rear := 0; is_shutdown_flag := true |}]> ∅.

(** [shut_heap] after two [dequeue(q)] calls: shut down and empty. *)
Definition drained_heap : heap :=
  <[1 := {| buffer := [13; 12]; capacity := 2; size := 0; front := 1;
            rear := 0; is_shutdown_flag := true |}]> ∅.

(** * Proofs *)

Ltac unfold_call :=
  unfold enqueue, dequeue, queue_shutdown, queue_destroy, is_empty,
    is_shutdown, pthread_mutex_lock, pthread_mutex_unlock,
    pthread_cond_signal, pthread_cond_broadcast, pthread_cond_wait,
    bind, ret, emit, deref, assign, free, defined in *.

Lemma eqb_NULL_false (q : queue_t) : q <> NULL -> (q =? NULL) = false.
Proof. intros H. apply Z.eqb_neq. exact H. Qed.

Section arithmetic.
Variable c : Z.
Hypothesis c_pos : 0 < c.

Lemma rem_is_mod a : 0 <= a -> Z.rem a c = a `mod` c.
Proof. intros Ha. apply Z.rem_mod_nonneg; lia. Qed.

Lemma mod_succ_l a : (a `mod` c + 1) `mod` c = (a + 1) `mod` c.
Proof. rewrite Z.add_mod_idemp_l by lia. reflexivity. Qed.

(** Two offsets less than [c] apart never share a slot. *)
Lemma mod_window_inj a i j :
  0 <= i < c -> 0 <= j < c ->
  (a + i) `mod` c = (a + j) `mod` c -> i = j.
Proof.
  intros Hi Hj E.
  assert (D : ((a + i) - (a + j)) `mod` c = 0).
  { rewrite Zminus_mod, E, Z.sub_diag. apply Z.mod_0_l. lia. }
  replace (a + i - (a + j)) with (i - j) in D by lia.
  apply Z.mod_divide in D; [|lia].
  destruct D as [k Hk].
  assert (k = 0) by nia. lia.
Qed.
End arithmetic.

(** The partial C operations, inside their defined range. *)

Lemma int_add_defined a b :
  INT_MIN <= a + b <= INT_MAX -> int_add a b = Some (a + b).
Proof.
  intros H. unfold int_add, in_int.
  rewrite (proj2 (Z.leb_le _ _)), (proj2 (Z.leb_le _ _)) by lia.
  reflexivity.
Qed.

Lemma int_sub_defined a b :
  INT_MIN <= a - b <= INT_MAX -> int_sub a b = Some (a - b).
Proof.
  intros H. unfold int_sub, in_int.
  rewrite (proj2 (Z.leb_le _ _)), (proj2 (Z.leb_le _ _)) by lia.
  reflexivity.
Qed.

Lemma int_rem_defined a c :
  0 <= a -> 0 < c -> int_rem a c = Some (a `mod` c).
Proof.
  intros Ha Hc. unfold int_rem.
  rewrite (proj2 (Z.eqb_neq c 0)), (proj2 (Z.eqb_neq c (-1))) by lia.
  rewrite andb_false_r, rem_is_mod by lia. reflexivity.
Qed.

Lemma array_store_defined (a : list ptr) i v :
  0 <= i < Z.of_nat (length a) ->
  array_store a i v = Some (<[Z.to_nat i := v]> a).
Proof.
  intros H. unfold array_store.
  rewrite (proj2 (Z.leb_le _ _)), (proj2 (Z.ltb_lt _ _)) by lia.
  reflexivity.
Qed.

Lemma array_load_defined (a : list ptr) i :
  0 <= i < Z.of_nat (length a) ->
  array_load a i = Some (default NULL (a !! Z.to_nat i)).
Proof.
  intros H. unfold array_load.
  rewrite (proj2 (Z.leb_le _ _)) by lia.
  destruct (lookup_lt_is_Some_2 a (Z.to_nat i)) as [x Hx]; [lia|].
  rewrite Hx. reflexivity.
Qed.

Lemma int_bounds : INT_MIN = -2147483648 /\ INT_MAX = 2147483647.
Proof. split; reflexivity. Qed.

(** ** What each call does to a live queue *)

Ltac run_live :=
  repeat (first [ rewrite (eqb_NULL_false _ ltac:(eassumption))
                | match goal with H : _ !! _ = Some _ |- _ => rewrite H end
                | rewrite lookup_insert_eq ];
          cbv beta iota).

Section live_queue.
Variables (h : heap) (q : queue_t) (s : queue).
Hypothesis q_not_null : q <> NULL.
Hypothesis q_live : h !! q = Some s.

Lemma enqueue_full_waits data :
  size s = capacity s -> is_shutdown_flag s = false ->
  enqueue q data h = Waits q not_full h [MutexLock q].
Proof.
  intros Hfull Hflag. unfold_call.
  rewrite (eqb_NULL_false q q_not_null), q_live, Hflag.
  rewrite (proj2 (Z.eqb_eq _ _) Hfull). reflexivity.
Qed.

Lemma enqueue_shutdown_drops data :
  is_shutdown_flag s = true ->
  enqueue q data h = Returns tt h [MutexLock q; MutexUnlock q].
Proof.
  intros Hflag. unfold_call.
  rewrite (eqb_NULL_false q q_not_null), q_live, Hflag.
  rewrite andb_false_r. reflexivity.
Qed.

Lemma enqueue_pushes data :
  wf s -> size s < capacity s -> is_shutdown_flag s = false ->
  enqueue q data h =
    Returns tt (<[q := pushed s data]> h)
      [MutexLock q; CondSignal q not_empty; MutexUnlock q].
Proof.
  intros [Hc Hb Hs Hf Hr Ht] Hlt Hflag. unfold count_ok in Hs.
  destruct int_bounds as [Hmin Hmax].
  assert (Hm : 0 <= (front s + size s) `mod` capacity s < capacity s)
    by (apply Z.mod_pos_bound; lia).
  unfold_call.
  rewrite (eqb_NULL_false q q_not_null), q_live, Hflag.
  rewrite (proj2 (Z.eqb_neq (size s) (capacity s))) by lia.
  cbn [andb negb].
  rewrite int_add_defined by lia.
  rewrite int_rem_defined by lia.
  rewrite Ht.
  rewrite array_store_defined by lia.
  rewrite int_add_defined by lia.
  rewrite q_live. unfold pushed. rewrite Hflag. reflexivity.
Qed.

Lemma dequeue_empty_waits :
  size s = 0 -> is_shutdown_flag s = false ->
  dequeue q h = Waits q not_empty h [MutexLock q].
Proof.
  intros Hz Hflag. unfold_call.
  rewrite (eqb_NULL_false q q_not_null), q_live, Hflag, Hz.
  reflexivity.
Qed.

Lemma dequeue_empty_shutdown :
  size s = 0 -> is_shutdown_flag s = true ->
  dequeue q h = Returns NULL h [MutexLock q; MutexUnlock q].
Proof.
  intros Hz Hflag. unfold_call.
  rewrite (eqb_NULL_false q q_not_null), q_live, Hflag, Hz.
  reflexivity.
Qed.

Lemma dequeue_pops :
  wf s -> 0 < size s ->
  dequeue q h =
    Returns (slot s 0) (<[q := popped s]> h)
      [MutexLock q; CondSignal q not_full; MutexUnlock q].
Proof.
  intros [Hc Hb Hs Hf Hr Ht] Hpos. unfold count_ok in Hs.
  destruct int_bounds as [Hmin Hmax].
  unfold_call.
  rewrite (eqb_NULL_false q q_not_null), q_live.
  rewrite (proj2 (Z.eqb_neq (size s) 0)) by lia.
  cbn [andb].
  rewrite array_load_defined by lia.
  rewrite int_add_defined by lia.
  rewrite int_rem_defined by lia.
  rewrite int_sub_defined by lia.
  rewrite q_live.
  unfold slot. change (Z.of_nat 0) with 0.
  rewrite Z.add_0_r, (Z.mod_small (front s)) by lia.
  reflexivity.
Qed.

Lemma shutdown_closes :
  queue_shutdown q h =
    Returns tt (<[q := closed s]> h)
      [MutexLock q; CondBroadcast q not_empty; CondBroadcast q not_full;
       MutexUnlock q].
Proof. unfold_call. run_live. reflexivity. Qed.

Lemma is_empty_reads :
  is_empty q h = Returns (size s =? 0) h [MutexLock q; MutexUnlock q].
Proof. unfold_call. run_live. reflexivity. Qed.

Lemma is_shutdown_reads :
  is_shutdown q h =
    Returns (is_shutdown_flag s) h [MutexLock q; MutexUnlock q].
Proof. unfold_call. run_live. reflexivity. Qed.

Lemma destroy_frees :
  queue_destroy q h =
    Returns tt (delete q h)
      [MutexLock q; CondBroadcast q not_empty; CondBroadcast q not_full;
       MutexUnlock q;
       MutexLock q; CondBroadcast q not_full; CondBroadcast q not_empty;
       MutexUnlock q;
       CondDestroy q not_empty; CondDestroy q not_full; MutexDestroy q].
Proof.
  unfold queue_destroy.
  rewrite (eqb_NULL_false q q_not_null).
  unfold bind at 1. rewrite shutdown_closes.
  unfold_call. run_live. rewrite delete_insert_eq. reflexivity.
Qed.
End live_queue.

(** ** What a returning call can have done *)

Ltac invert_call H :=
  unfold_call;
  unfold int_add, int_sub, int_rem, array_load, array_store in H;
  repeat (case_match; simplify_eq/=; try discriminate).

Lemma enqueue_returns_inv q data h h' tr :
  enqueue q data h = Returns tt h' tr ->
  h' = h \/ exists s s', h !! q = Some s /\ moves s s' /\ h' = <[q := s']> h.
Proof.
  intros H. invert_call H; auto.
  right. eexists _, _. split; [reflexivity|]. split; [|reflexivity].
  apply moves_enqueue; auto; lia.
Qed.

Lemma dequeue_returns_inv q x h h' tr :
  dequeue q h = Returns x h' tr ->
  h' = h \/ exists s s', h !! q = Some s /\ moves s s' /\ h' = <[q := s']> h.
Proof.
  intros H. invert_call H; auto.
  all: right; eexists _, _; (split; [reflexivity|]); (split; [|reflexivity]).
  all: apply moves_dequeue; lia.
Qed.

Lemma shutdown_returns_inv q h h' tr :
  queue_shutdown q h = Returns tt h' tr ->
  h' = h \/ exists s s', h !! q = Some s /\ moves s s' /\ h' = <[q := s']> h.
Proof.
  intros H. invert_call H; auto.
  right. eexists _, _. split; [reflexivity|]. split; [|reflexivity].
  apply moves_shutdown.
Qed.

Lemma is_empty_returns_inv q b h h' tr :
  is_empty q h = Returns b h' tr -> h' = h.
Proof. intros H. invert_call H; auto. Qed.

Lemma is_shutdown_returns_inv q b h h' tr :
  is_shutdown q h = Returns b h' tr -> h' = h.
Proof. intros H. invert_call H; auto. Qed.

Lemma destroy_returns_inv q h h' tr :
  queue_destroy q h = Returns tt h' tr -> h' = h \/ h' = delete q h.
Proof.
  intros H. destruct (Z.eq_dec q NULL) as [->|Hq].
  - left. unfold queue_destroy, ret in H. cbn in H. congruence.
  - destruct (h !! q) as [s|] eqn:Hs.
    + rewrite (destroy_frees h q s Hq Hs) in H. right. congruence.
    + unfold queue_destroy in H. rewrite (eqb_NULL_false q Hq) in H.
      unfold bind at 1 in H. unfold_call.
      rewrite (eqb_NULL_false q Hq), Hs in H. discriminate.
Qed.

Lemma malloc_addr_fresh (h : heap) :
  malloc_addr h <> NULL /\ h !! malloc_addr h = None.
Proof.
  assert (F : malloc_addr h ∉ ({[NULL]} : gset Z) ∪ dom h)
    by (unfold malloc_addr; apply is_fresh).
  split.
  - intros E. rewrite E in F. set_solver.
  - apply not_elem_of_dom. set_solver.
Qed.

Lemma init_returns_inv r cap h q h' tr :
  queue_init r cap h = Returns q h' tr ->
  0 < cap /\
  ((q = NULL /\ h' = h) \/
   (q = malloc_addr h /\ h' = <[q := initial r cap]> h)).
Proof.
  unfold queue_init. intros H.
  destruct (0 <? cap) eqn:Hc; [|discriminate].
  apply Z.ltb_lt in Hc. split; [exact Hc|].
  cbn [negb] in H.
  repeat (case_match; simplify_eq/=; auto).
Qed.

Lemma step_inv h h' :
  step h h' ->
  h' = h
  \/ (exists q s s', h !! q = Some s /\ moves s s' /\ h' = <[q := s']> h)
  \/ (exists q, h' = delete q h)
  \/ (exists r cap,
        in_int cap = true /\ 0 < cap /\ h !! malloc_addr h = None /\
        h' = <[malloc_addr h := initial r cap]> h).
Proof.
  destruct 1 as [r cap h q h' tr Hcap H | q h h' tr H | q d h h' tr H
                | q h x h' tr H | q h h' tr H | q h b h' tr H
                | q h b h' tr H].
  - apply init_returns_inv in H as [Hpos [[_ ->] | [-> ->]]];
      [left; reflexivity|].
    do 3 right. exists r, cap.
    destruct (malloc_addr_fresh h) as [_ Hfree].
    repeat split; assumption || reflexivity.
  - apply destroy_returns_inv in H as [-> | ->]; [left; reflexivity|].
    right. right. left. exists q. reflexivity.
  - apply enqueue_returns_inv in H as [-> | H];
      [left; reflexivity | right; left; exists q; exact H].
  - apply dequeue_returns_inv in H as [-> | H];
      [left; reflexivity | right; left; exists q; exact H].
  - apply shutdown_returns_inv in H as [-> | H];
      [left; reflexivity | right; left; exists q; exact H].
  - apply is_empty_returns_inv in H as ->. left; reflexivity.
  - apply is_shutdown_returns_inv in H as ->. left; reflexivity.
Qed.

(** ** The invariants *)

Lemma initial_wf r cap : in_int cap = true -> 0 < cap -> wf (initial r cap).
Proof.
  intros Hint Hpos. unfold in_int in Hint.
  apply andb_true_iff in Hint as [_ Hmax%Z.leb_le].
  split; unfold count_ok; cbn.
  - lia.
  - rewrite length_fmap, length_seq. lia.
  - lia.
  - lia.
  - lia.
  - reflexivity.
Qed.

Lemma moves_capacity s s' : moves s s' -> capacity s' = capacity s.
Proof. destruct 1; reflexivity. Qed.

Lemma moves_count_ok s s' : count_ok s -> moves s s' -> count_ok s'.
Proof. unfold count_ok. intros Hs. destruct 1; cbn; lia. Qed.

Lemma moves_flag s s' :
  is_shutdown_flag s = true -> moves s s' -> is_shutdown_flag s' = true.
Proof. intros Hs. destruct 1; cbn; congruence. Qed.

Lemma moves_wf s s' : wf s -> moves s s' -> wf s'.
Proof.
  intros [Hc Hb Hs Hf Hr Ht]. unfold count_ok in Hs.
  destruct 1 as [s d Hflag Hne Hidx | s Hne | s].
  - rewrite (rem_is_mod (capacity s)) in * by lia.
    assert (Hm : 0 <= (rear s + 1) `mod` capacity s < capacity s)
      by (apply Z.mod_pos_bound; lia).
    split; unfold count_ok; cbn; try lia.
    + rewrite length_insert. exact Hb.
    + rewrite Ht, Z.add_assoc. apply mod_succ_l. lia.
  - rewrite (rem_is_mod (capacity s)) in * by lia.
    assert (Hm : 0 <= (front s + 1) `mod` capacity s < capacity s)
      by (apply Z.mod_pos_bound; lia).
    split; unfold count_ok; cbn; try lia.
    rewrite Ht, Z.add_mod_idemp_l by lia. f_equal. lia.
  - split; unfold count_ok; cbn; auto.
Qed.

Lemma step_preserves (P : queue -> Prop) :
  (forall r cap, in_int cap = true -> 0 < cap -> P (initial r cap)) ->
  (forall s s', P s -> moves s s' -> P s') ->
  forall h h', map_Forall (fun _ => P) h -> step h h' ->
               map_Forall (fun _ => P) h'.
Proof.
  intros Hinit Hmoves h h' Hh Hstep.
  apply step_inv in Hstep
    as [-> | [(q & s & s' & Hq & Hm & ->) | [(q & ->) | (r & cap & Hi & Hp & _ & ->)]]].
  - exact Hh.
  - apply map_Forall_insert_2; [|exact Hh].
    apply (Hmoves s); [|exact Hm]. exact (Hh q s Hq).
  - apply map_Forall_delete. exact Hh.
  - apply map_Forall_insert_2; [|exact Hh]. apply Hinit; assumption.
Qed.

Lemma reachable_preserves (P : queue -> Prop) :
  (forall r cap, in_int cap = true -> 0 < cap -> P (initial r cap)) ->
  (forall s s', P s -> moves s s' -> P s') ->
  forall h, reachable h -> map_Forall (fun _ => P) h.
Proof.
  intros Hinit Hmoves. unfold reachable.
  apply (rtc_ind_r (fun h => map_Forall (fun _ => P) h)).
  - apply map_Forall_empty.
  - intros h1 h2 _ Hstep IH.
    exact (step_preserves P Hinit Hmoves h1 h2 IH Hstep).
Qed.

Lemma reachable_wf h q s : reachable h -> h !! q = Some s -> wf s.
Proof.
  intros Hreach Hq.
  exact (reachable_preserves wf initial_wf moves_wf h Hreach q s Hq).
Qed.

(** ** The buffered items under each transition *)

Lemma contents_length s : length (contents s) = Z.to_nat (size s).
Proof. unfold contents. rewrite length_fmap, length_seq. reflexivity. Qed.

Lemma contents_closed s : contents (closed s) = contents s.
Proof. reflexivity. Qed.

Lemma contents_pushed s data :
  wf s -> size s < capacity s ->
  contents (pushed s data) = contents s ++ [data].
Proof.
  intros [Hc Hb Hs Hf Hr Ht] Hlt. unfold count_ok in Hs.
  assert (Hm : 0 <= (front s + size s) `mod` capacity s < capacity s)
    by (apply Z.mod_pos_bound; lia).
  unfold contents. cbn [size pushed].
  replace (Z.to_nat (size s + 1)) with (S (Z.to_nat (size s))) by lia.
  rewrite seq_S, fmap_app. f_equal.
  - apply list_fmap_ext. intros i k Hk.
    apply lookup_seq in Hk as [-> Hi]. cbn [Nat.add].
    unfold slot. cbn [buffer front capacity pushed].
    rewrite list_lookup_insert_ne; [reflexivity|].
    intros E. apply Z2Nat.inj in E; [|lia|apply Z.mod_pos_bound; lia].
    apply (mod_window_inj (capacity s)) in E; lia.
  - cbn [fmap list_fmap Nat.add]. unfold slot.
    cbn [buffer front capacity pushed].
    rewrite Z2Nat.id by lia.
    rewrite list_lookup_insert_eq by lia. reflexivity.
Qed.

Lemma contents_popped s :
  wf s -> 0 < size s ->
  contents s = slot s 0 :: contents (popped s).
Proof.
  intros [Hc Hb Hs Hf Hr Ht] Hpos. unfold count_ok in Hs.
  unfold contents. cbn [size popped].
  replace (Z.to_nat (size s)) with (S (Z.to_nat (size s - 1))) by lia.
  cbn [seq fmap list_fmap]. f_equal.
  rewrite <- fmap_S_seq, <- list_fmap_compose.
  apply list_fmap_ext. intros i k _. unfold compose, slot.
  cbn [buffer front capacity popped].
  rewrite Z.add_mod_idemp_l by lia.
  do 4 f_equal. lia.
Qed.

(** ** Live handles *)

Lemma step_null_free h h' : h !! NULL = None -> step h h' -> h' !! NULL = None.
Proof.
  intros Hn Hstep.
  apply step_inv in Hstep
    as [-> | [(q & s & s' & Hq & _ & ->) | [(q & ->) | (r & cap & _ & _ & _ & ->)]]].
  - exact Hn.
  - rewrite lookup_insert_ne; [exact Hn|]. intros ->. congruence.
  - destruct (decide (q = NULL)) as [->|Hne].
    + apply lookup_delete_eq.
    + rewrite lookup_delete_ne by exact Hne. exact Hn.
  - rewrite lookup_insert_ne; [exact Hn|]. apply malloc_addr_fresh.
Qed.

Lemma reachable_not_null h q s : reachable h -> h !! q = Some s -> q <> NULL.
Proof.
  intros Hreach Hq ->. revert Hq.
  assert (Hn : h !! NULL = None); [|congruence].
  revert h Hreach. apply (rtc_ind_r (fun h : heap => h !! NULL = None)).
  - apply lookup_empty.
  - intros h1 h2 _ Hstep IH. exact (step_null_free h1 h2 IH Hstep).
Qed.

(** ** Runs of calls on one live queue *)

Lemma bind_returns {A B : Type} (m : M A) (f : A -> M B) h v h1 t1 :
  m h = Returns v h1 t1 ->
  bind m f h =
    match f v h1 with
    | Returns w h2 t2 => Returns w h2 (t1 ++ t2)
    | Waits q c h2 t2 => Waits q c h2 (t1 ++ t2)
    | Aborts => Aborts
    | Undefined => Undefined
    end.
Proof. intros H. unfold bind. rewrite H. reflexivity. Qed.

Lemma moves_pushed s data :
  wf s -> is_shutdown_flag s = false -> size s < capacity s ->
  moves s (pushed s data).
Proof.
  intros [Hc Hb Hs Hf Hr Ht] Hflag Hlt. unfold count_ok in Hs.
  assert (Hm : 0 <= (front s + size s) `mod` capacity s < capacity s)
    by (apply Z.mod_pos_bound; lia).
  pose proof (moves_enqueue s data Hflag ltac:(lia)) as Hmv.
  rewrite (rem_is_mod (capacity s)), Ht in Hmv by lia.
  unfold pushed. rewrite Hflag. apply Hmv. lia.
Qed.

Lemma moves_popped s : wf s -> 0 < size s -> moves s (popped s).
Proof.
  intros [Hc Hb Hs Hf Hr Ht] Hpos.
  pose proof (moves_dequeue s ltac:(lia)) as Hmv.
  rewrite (rem_is_mod (capacity s)) in Hmv by lia. exact Hmv.
Qed.

Lemma enqueue_all_appends items : forall h q s,
  q <> NULL -> h !! q = Some s -> wf s -> is_shutdown_flag s = false ->
  size s + Z.of_nat (length items) <= capacity s ->
  exists s' tr,
    enqueue_all q items h = Returns tt (<[q := s']> h) tr /\
    wf s' /\ contents s' = contents s ++ items /\
    is_shutdown_flag s' = false /\ capacity s' = capacity s /\
    size s' = size s + Z.of_nat (length items).
Proof.
  induction items as [|x rest IH]; intros h q s Hq Hlive Hwf Hflag Hroom.
  - exists s, []. cbn [enqueue_all length]. unfold ret.
    rewrite insert_id by exact Hlive. rewrite app_nil_r.
    split; [reflexivity|]. split; [exact Hwf|]. split; [reflexivity|].
    split; [exact Hflag|]. split; [reflexivity|]. lia.
  - cbn [length] in Hroom.
    assert (Hlt : size s < capacity s) by lia.
    destruct (IH (<[q := pushed s x]> h) q (pushed s x))
      as (s' & tr & Hrun & Hwf' & Hc & Hf' & Hcap & Hsz).
    + exact Hq.
    + apply lookup_insert_eq.
    + exact (moves_wf s _ Hwf (moves_pushed s x Hwf Hflag Hlt)).
    + exact Hflag.
    + cbn [pushed size capacity]. lia.
    + exists s', ([MutexLock q; CondSignal q not_empty; MutexUnlock q] ++ tr).
      cbn [enqueue_all].
      rewrite (bind_returns _ _ h tt (<[q := pushed s x]> h)
                 [MutexLock q; CondSignal q not_empty; MutexUnlock q])
        by (apply enqueue_pushes; assumption).
      rewrite Hrun, insert_insert_eq.
      split; [reflexivity|]. split; [exact Hwf'|].
      split; [rewrite Hc, contents_pushed by assumption;
              rewrite <- app_assoc; reflexivity|].
      split; [exact Hf'|]. split; [exact Hcap|].
      rewrite Hsz. cbn [pushed size length]. lia.
Qed.

Lemma dequeue_n_takes n : forall h q s,
  q <> NULL -> h !! q = Some s -> wf s -> Z.of_nat n <= size s ->
  exists s' tr,
    dequeue_n q n h = Returns (take n (contents s)) (<[q := s']> h) tr /\
    wf s' /\ contents s' = drop n (contents s) /\
    is_shutdown_flag s' = is_shutdown_flag s /\ capacity s' = capacity s /\
    size s' = size s - Z.of_nat n.
Proof.
  induction n as [|n IH]; intros h q s Hq Hlive Hwf Hn.
  - exists s, []. cbn [dequeue_n take drop]. unfold ret.
    rewrite insert_id by exact Hlive.
    split; [reflexivity|]. split; [exact Hwf|]. split; [reflexivity|].
    split; [reflexivity|]. split; [reflexivity|]. lia.
  - assert (Hpos : 0 < size s) by lia.
    destruct (IH (<[q := popped s]> h) q (popped s))
      as (s' & tr & Hrun & Hwf' & Hc & Hf' & Hcap & Hsz).
    + exact Hq.
    + apply lookup_insert_eq.
    + exact (moves_wf s _ Hwf (moves_popped s Hwf Hpos)).
    + cbn [popped size]. lia.
    + exists s', ([MutexLock q; CondSignal q not_full; MutexUnlock q]
                  ++ tr ++ []).
      cbn [dequeue_n].
      rewrite (bind_returns _ _ h (slot s 0) (<[q := popped s]> h)
                 [MutexLock q; CondSignal q not_full; MutexUnlock q])
        by (apply dequeue_pops; assumption).
      rewrite (bind_returns _ _ _ _ _ _ Hrun). unfold ret.
      rewrite insert_insert_eq, (contents_popped s Hwf Hpos).
      cbn [take drop].
      split; [reflexivity|]. split; [exact Hwf'|].
      split; [exact Hc|]. split; [exact Hf'|]. split; [exact Hcap|].
      rewrite Hsz. cbn [popped size]. lia.
Qed.

Lemma dequeue_n_drained k h q s :
  q <> NULL -> h !! q = Some s -> size s = 0 -> is_shutdown_flag s = true ->
  exists tr, dequeue_n q k h = Returns (replicate k NULL) h tr.
Proof.
  intros Hq Hlive Hz Hflag. induction k as [|k [tr IH]].
  - exists []. reflexivity.
  - exists ([MutexLock q; MutexUnlock q] ++ tr ++ []). cbn [dequeue_n].
    rewrite (bind_returns _ _ h NULL h [MutexLock q; MutexUnlock q])
      by (apply (dequeue_empty_shutdown h q s); assumption).
    rewrite (bind_returns _ _ _ _ _ _ IH). reflexivity.
Qed.

Lemma dequeue_n_add a : forall b h xs h1 t1 ys h2 t2 q,
  dequeue_n q a h = Returns xs h1 t1 ->
  dequeue_n q b h1 = Returns ys h2 t2 ->
  exists tr, dequeue_n q (a + b) h = Returns (xs ++ ys) h2 tr.
Proof.
  induction a as [|a IH]; intros b h xs h1 t1 ys h2 t2 q Ha Hb.
  - cbn in Ha. unfold ret in Ha. injection Ha as <- <- <-.
    exists t2. exact Hb.
  - cbn [dequeue_n] in Ha. unfold bind at 1 in Ha.
    destruct (dequeue q h) as [x h' t'| | |] eqn:Hd; try discriminate.
    unfold bind at 1 in Ha.
    destruct (dequeue_n q a h') as [xs' h'' t''| | |] eqn:Hrest;
      try discriminate.
    unfold ret in Ha. injection Ha as <- <- <-.
    destruct (IH b h' xs' h'' t'' ys h2 t2 q Hrest Hb) as [tr Hsum].
    exists (t' ++ tr ++ []).
    cbn [Nat.add dequeue_n].
    rewrite (bind_returns _ _ _ _ _ _ Hd).
    rewrite (bind_returns _ _ _ _ _ _ Hsum). reflexivity.
Qed.

(** ** One queue across the steps of all threads *)

Lemma step_at h h' q s :
  step h h' -> h !! q = Some s ->
  h' !! q = None \/ h' !! q = Some s \/
  exists s', moves s s' /\ h' !! q = Some s'.
Proof.
  intros Hstep Hlive.
  apply step_inv in Hstep
    as [-> | [(q0 & s0 & s' & Hq & Hm & ->) | [(q0 & ->) | (r & cap & _ & _ & Hfree & ->)]]].
  - right. left. exact Hlive.
  - destruct (decide (q0 = q)) as [->|Hne].
    + right. right. exists s'. rewrite lookup_insert_eq.
      split; [congruence | reflexivity].
    + right. left. rewrite lookup_insert_ne by exact Hne. exact Hlive.
  - destruct (decide (q0 = q)) as [->|Hne].
    + left. apply lookup_delete_eq.
    + right. left. rewrite lookup_delete_ne by exact Hne. exact Hlive.
  - right. left. rewrite lookup_insert_ne; [exact Hlive|]. congruence.
Qed.

Lemma kept_stable (P : queue -> Prop) q :
  (forall s s', P s -> moves s s' -> P s') ->
  forall h h', rtc (step_keeping q) h h' ->
  forall s, h !! q = Some s -> P s ->
  exists s', h' !! q = Some s' /\ P s'.
Proof.
  intros Hstable h h' Hrun.
  induction Hrun as [h | h h1 h2 [Hstep [s1 Hs1]] _ IH]; intros s Hlive HP.
  - exists s. split; assumption.
  - apply (IH s1 Hs1).
    destruct (step_at h h1 q s Hstep Hlive) as [E | [E | (s' & Hm & E)]].
    + congruence.
    + congruence.
    + rewrite E in Hs1. injection Hs1 as <-. exact (Hstable s s' HP Hm).
Qed.

Lemma moves_drained s s' : drained s -> moves s s' -> drained s'.
Proof.
  intros [Hz Hflag]. destruct 1; [congruence | congruence |].
  split; [exact Hz | reflexivity].
Qed.

(** ** Blocking calls and defined behaviour *)

(** A call that blocks has not written to the heap: it can be retried on
    the heap current at wake-up. *)
Lemma waits_heap_unchanged q data h q' c h' tr :
  enqueue q data h = Waits q' c h' tr \/ dequeue q h = Waits q' c h' tr ->
  h' = h /\ q' = q /\ tr = [MutexLock q].
Proof.
  intros [H | H]; invert_call H; auto.
Qed.

Lemma enqueue_waits_iff h q s data :
  q <> NULL -> h !! q = Some s ->
  (exists q' c h' tr, enqueue q data h = Waits q' c h' tr) <->
  size s = capacity s /\ is_shutdown_flag s = false.
Proof.
  intros Hq Hlive. split.
  - intros (q' & c & h' & tr & H). invert_call H.
    match goal with E : _ && _ = true |- _ =>
      apply andb_true_iff in E as [E1 E2] end.
    apply negb_true_iff in E2. split; [lia | exact E2].
  - intros [Hfull Hflag]. eexists _, _, _, _.
    apply (enqueue_full_waits h q s); assumption.
Qed.

Lemma dequeue_waits_iff h q s :
  q <> NULL -> h !! q = Some s ->
  (exists q' c h' tr, dequeue q h = Waits q' c h' tr) <->
  size s = 0 /\ is_shutdown_flag s = false.
Proof.
  intros Hq Hlive. split.
  - intros (q' & c & h' & tr & H). invert_call H.
    match goal with E : _ && _ = true |- _ =>
      apply andb_true_iff in E as [E1 E2] end.
    apply negb_true_iff in E2. split; [lia | exact E2].
  - intros [Hz Hflag]. eexists _, _, _, _.
    apply (dequeue_empty_waits h q s); assumption.
Qed.

(** On a reachable heap no call on a live queue runs into undefined
    behaviour: [enqueue] and [dequeue] return or block. *)
Lemma reachable_defined h q s data :
  reachable h -> h !! q = Some s ->
  enqueue q data h <> Undefined /\ enqueue q data h <> Aborts /\
  dequeue q h <> Undefined /\ dequeue q h <> Aborts.
Proof.
  intros Hreach Hlive.
  pose proof (reachable_wf h q s Hreach Hlive) as Hwf.
  pose proof (reachable_not_null h q s Hreach Hlive) as Hq.
  assert (Hs : 0 <= size s <= capacity s) by (destruct Hwf; assumption).
  assert (He : exists o, enqueue q data h = o /\ o <> Undefined /\ o <> Aborts).
  { destruct (is_shutdown_flag s) eqn:Hflag.
    - eexists. split; [apply (enqueue_shutdown_drops h q s); assumption|].
      split; discriminate.
    - destruct (decide (size s = capacity s)) as [Hfull | Hroom].
      + eexists. split; [apply (enqueue_full_waits h q s); assumption|].
        split; discriminate.
      + eexists. split; [apply (enqueue_pushes h q s); auto; lia|].
        split; discriminate. }
  assert (Hd : exists o, dequeue q h = o /\ o <> Undefined /\ o <> Aborts).
  { destruct (decide (size s = 0)) as [Hz | Hnz].
    - destruct (is_shutdown_flag s) eqn:Hflag.
      + eexists. split; [apply (dequeue_empty_shutdown h q s); assumption|].
        split; discriminate.
      + eexists. split; [apply (dequeue_empty_waits h q s); assumption|].
        split; discriminate.
    - eexists. split; [apply (dequeue_pops h q s); auto; lia|].
      split; discriminate. }
  destruct He as (o1 & -> & ? & ?). destruct Hd as (o2 & -> & ? & ?).
  auto.
Qed.

(** ** Concrete queues *)

Lemma fresh_heap_init : queue_init granted 2 ∅ = Returns 1 fresh_heap [].
Proof. vm_compute. reflexivity. Qed.

Lemma fresh_heap_reachable : reachable fresh_heap.
Proof.
  eapply rtc_r; [apply rtc_refl|].
  eapply (step_init granted 2); [reflexivity | exact fresh_heap_init].
Qed.

Lemma reachable_step h h' : reachable h -> step h h' -> reachable h'.
Proof. intros Hreach Hstep. exact (rtc_r _ _ _ Hreach Hstep). Qed.

Lemma wrapped_heap_reachable : reachable wrapped_heap.
Proof.
  eapply reachable_step;
    [eapply reachable_step;
       [eapply reachable_step; [eapply reachable_step|]|]|].
  - exact fresh_heap_reachable.
  - eapply (step_enqueue 1 11). vm_compute. reflexivity.
  - eapply (step_enqueue 1 12). vm_compute. reflexivity.
  - eapply (step_dequeue 1 _ 11). vm_compute. reflexivity.
  - eapply (step_enqueue 1 13). vm_compute. reflexivity.
Qed.

Lemma shut_heap_reachable : reachable shut_heap.
Proof.
  eapply reachable_step; [exact wrapped_heap_reachable|].
  eapply (step_shutdown 1). vm_compute. reflexivity.
Qed.

Lemma drained_heap_reachable : reachable drained_heap.
Proof.
  eapply reachable_step; [eapply reachable_step|].
  - exact shut_heap_reachable.
  - eapply (step_dequeue 1 _ 12). vm_compute. reflexivity.
  - eapply (step_dequeue 1 _ 13). vm_compute. reflexivity.
Qed.

(** Another thread's [enqueue] on the drained queue returns and leaves
    the heap as it was. *)
Lemma drained_heap_after_enqueue :
  rtc (step_keeping 1) drained_heap drained_heap.
Proof.
  eapply rtc_once. split.
  - eapply (step_enqueue 1 42). vm_compute. reflexivity.
  - eexists. reflexivity.
Qed.

(** * The FIFO law *)

(** C1.  On a reachable heap, take a live queue that is empty and not shut
    down.  Enqueueing [N] items, with [N] at most the capacity, and then
    dequeueing [N] times runs to completion without blocking, and the
    dequeues return exactly the enqueued items in their order. *)
Theorem fifo_law h q s items :
  reachable h -> h !! q = Some s ->
  size s = 0 -> is_shutdown_flag s = false ->
  Z.of_nat (length items) <= capacity s ->
  exists h' tr,
    (enqueue_all q items;; dequeue_n q (length items)) h =
      Returns items h' tr.
Proof.
  intros Hreach Hlive Hz Hflag Hroom.
  pose proof (reachable_wf h q s Hreach Hlive) as Hwf.
  pose proof (reachable_not_null h q s Hreach Hlive) as Hq.
  destruct (enqueue_all_appends items h q s Hq Hlive Hwf Hflag ltac:(lia))
    as (s1 & tr1 & Hrun1 & Hwf1 & Hc1 & _ & _ & Hsz1).
  destruct (dequeue_n_takes (length items) (<[q := s1]> h) q s1 Hq
              (lookup_insert_eq _ _ _) Hwf1 ltac:(lia))
    as (s2 & tr2 & Hrun2 & _).
  exists (<[q := s2]> (<[q := s1]> h)), (tr1 ++ tr2).
  rewrite (bind_returns _ _ _ _ _ _ Hrun1), Hrun2.
  do 2 f_equal. rewrite Hc1.
  assert (E : contents s = []).
  { apply nil_length_inv. rewrite contents_length, Hz. reflexivity. }
  rewrite E. cbn [app]. apply firstn_all.
Qed.

Lemma fifo_law_witness :
  exists h' tr,
    (enqueue_all 1 [11; 12];; dequeue_n 1 2) fresh_heap =
      Returns [11; 12] h' tr.
Proof.
  apply (fifo_law fresh_heap 1 (initial granted 2) [11; 12]).
  - exact fresh_heap_reachable.
  - reflexivity.
  - reflexivity.
  - reflexivity.
  - vm_compute. discriminate.
Defined.

(** * Draining after shutdown *)

Lemma null_item_heap_reachable : reachable null_item_heap.
Proof.
  eapply reachable_step; [eapply reachable_step; [eapply reachable_step|]|].
  - apply rtc_refl.
  - eapply (step_init granted 1 ∅ 1); [reflexivity|].
    vm_compute. reflexivity.
  - eapply (step_enqueue 1 NULL). vm_compute. reflexivity.
  - eapply (step_shutdown 1). vm_compute. reflexivity.
Qed.

(** C2, as stated, fails: on a shut-down queue that buffers the item
    [NULL], [dequeue] returns [NULL] although the buffer is not empty. *)
Lemma drain_null_iff_empty_counterexample :
  reachable null_item_heap /\
  null_item_heap !! 1 =
    Some {| buffer := [NULL]; capacity := 1; size := 1; front := 0;
            rear := 0; is_shutdown_flag := true |} /\
  ~ (forall s x h' tr,
       null_item_heap !! 1 = Some s ->
       dequeue 1 null_item_heap = Returns x h' tr ->
       (x = NULL <-> size s = 0)).
Proof.
  split; [exact null_item_heap_reachable|]. split; [reflexivity|].
  intros H.
  specialize (H _ NULL
    (<[1 := {| buffer := [NULL]; capacity := 1; size := 0; front := 0;
               rear := 0; is_shutdown_flag := true |}]> ∅)
    [MutexLock 1; CondSignal 1 not_full; MutexUnlock 1]
    eq_refl).
  cbn [size] in H.
  assert (E : (1 : Z) = 0); [|discriminate E].
  apply H; [|reflexivity]. vm_compute. reflexivity.
Qed.

(** C2, amended.  On a reachable heap, for a live queue whose shutdown
    flag is set: dequeueing yields all buffered items oldest first and
    then [NULL] on each further call; one [dequeue] returns [NULL] when
    the buffer is empty, and if no buffered item is [NULL] it returns
    [NULL] only then; and once the queue is empty it stays so whatever
    calls other threads complete while the queue is live, every later
    [dequeue] returning [NULL] at once. *)
Theorem shutdown_drain h q s k :
  reachable h -> h !! q = Some s -> is_shutdown_flag s = true ->
  (exists h' tr,
     dequeue_n q (Z.to_nat (size s) + k) h =
       Returns (contents s ++ replicate k NULL) h' tr) /\
  (exists x h' tr,
     dequeue q h = Returns x h' tr /\
     (size s = 0 -> x = NULL) /\
     (NULL ∉ contents s -> x = NULL -> size s = 0)) /\
  (size s = 0 ->
   forall h', rtc (step_keeping q) h h' ->
   exists tr, dequeue q h' = Returns NULL h' tr).
Proof.
  intros Hreach Hlive Hflag.
  pose proof (reachable_wf h q s Hreach Hlive) as Hwf.
  pose proof (reachable_not_null h q s Hreach Hlive) as Hq.
  assert (Hs : 0 <= size s) by (destruct Hwf as [_ _ [? _] _ _ _]; lia).
  split; [|split].
  - destruct (dequeue_n_takes (Z.to_nat (size s)) h q s Hq Hlive Hwf
                ltac:(lia))
      as (s1 & tr1 & Hrun1 & _ & _ & Hf1 & _ & Hsz1).
    rewrite firstn_all2 in Hrun1 by (rewrite contents_length; lia).
    destruct (dequeue_n_drained k (<[q := s1]> h) q s1 Hq
                (lookup_insert_eq _ _ _) ltac:(lia) ltac:(congruence))
      as [tr2 Hrun2].
    destruct (dequeue_n_add _ _ _ _ _ _ _ _ _ _ Hrun1 Hrun2) as [tr Hrun].
    exists (<[q := s1]> h), tr. exact Hrun.
  - destruct (decide (size s = 0)) as [Hz | Hnz].
    + exists NULL, h, [MutexLock q; MutexUnlock q].
      split; [apply (dequeue_empty_shutdown h q s); assumption|].
      split; [reflexivity | intros _ _; exact Hz].
    + exists (slot s 0), (<[q := popped s]> h),
        [MutexLock q; CondSignal q not_full; MutexUnlock q].
      split; [apply dequeue_pops; [assumption..|lia]|].
      split; [intros Hz; contradiction|].
      intros Hnone Hx. exfalso. apply Hnone.
      rewrite (contents_popped s Hwf ltac:(lia)), Hx. apply list_elem_of_here.
  - intros Hz h' Hrun.
    destruct (kept_stable drained q moves_drained h h' Hrun s Hlive
                (conj Hz Hflag))
      as (s' & Hlive' & Hz' & Hflag').
    exists [MutexLock q; MutexUnlock q].
    apply (dequeue_empty_shutdown h' q s'); assumption.
Qed.

Lemma shutdown_drain_witness :
  (exists h' tr,
     dequeue_n 1 (2 + 3) shut_heap =
       Returns [12; 13; NULL; NULL; NULL] h' tr) /\
  (exists x h' tr,
     dequeue 1 shut_heap = Returns x h' tr /\ x <> NULL) /\
  (exists x h' tr,
     dequeue 1 drained_heap = Returns x h' tr /\ x = NULL) /\
  (exists tr, dequeue 1 drained_heap = Returns NULL drained_heap tr).
Proof.
  destruct (shutdown_drain shut_heap 1
              {| buffer := [13; 12]; capacity := 2; size := 2; front := 1;
                 rear := 0; is_shutdown_flag := true |} 3
              shut_heap_reachable eq_refl eq_refl)
    as (Hdrain & (x & h1 & tr1 & Hx & _ & Honly) & _).
  destruct (shutdown_drain drained_heap 1
              {| buffer := [13; 12]; capacity := 2; size := 0; front := 1;
                 rear := 0; is_shutdown_flag := true |} 0
              drained_heap_reachable eq_refl eq_refl)
    as (_ & (y & h2 & tr2 & Hy & Hempty & _) & Hstay).
  split; [exact Hdrain|]. split; [|split].
  - exists x, h1, tr1. split; [exact Hx|].
    intros Hnull.
    assert (E : (2 : Z) = 0); [|discriminate E].
    apply Honly; [|exact Hnull].
    intros Hin.
    apply elem_of_cons in Hin as [Hin | Hin]; [discriminate|].
    apply elem_of_cons in Hin as [Hin | Hin]; [discriminate|].
    inversion Hin.
  - exists y, h2, tr2. split; [exact Hy|]. apply Hempty. reflexivity.
  - exact (Hstay eq_refl drained_heap drained_heap_after_enqueue).
Defined.

(** * Enqueue on a shut-down queue *)

(** C3.  When the shutdown flag of the queue is set, [enqueue] returns
    without waiting and leaves the whole heap as it was: buffer, count,
    front, rear and flag of the queue are untouched, and nothing is
    signalled. *)
Theorem enqueue_shutdown_unchanged h q s data :
  h !! q = Some s -> is_shutdown_flag s = true ->
  enqueue q data h =
    Returns tt h (if q =? NULL then [] else [MutexLock q; MutexUnlock q]).
Proof.
  intros Hlive Hflag. destruct (q =? NULL) eqn:Hq.
  - unfold enqueue. rewrite Hq. reflexivity.
  - apply Z.eqb_neq in Hq.
    exact (enqueue_shutdown_drops h q s Hq Hlive data Hflag).
Qed.

Lemma enqueue_shutdown_unchanged_witness :
  enqueue 1 42 null_item_heap =
    Returns tt null_item_heap [MutexLock 1; MutexUnlock 1].
Proof.
  apply (enqueue_shutdown_unchanged null_item_heap 1
           {| buffer := [NULL]; capacity := 1; size := 1; front := 0;
              rear := 0; is_shutdown_flag := true |} 42).
  - reflexivity.
  - reflexivity.
Defined.

(** * The occupancy bound *)

(** C4.  [0 <= size <= capacity] holds of the queue a successful
    [queue_init] returns, every call that returns (construction and
    destruction of queues, [enqueue], [dequeue], [queue_shutdown],
    [is_empty], [is_shutdown]) keeps it true of every live queue, and so
    it holds of every live queue of every reachable heap. *)
Theorem count_invariant :
  (forall r cap h q h' tr,
     queue_init r cap h = Returns q h' tr -> q <> NULL ->
     exists s, h' !! q = Some s /\ 0 <= size s <= capacity s) /\
  (forall h h',
     map_Forall (fun _ s => 0 <= size s <= capacity s) h -> step h h' ->
     map_Forall (fun _ s => 0 <= size s <= capacity s) h') /\
  (forall h q s,
     reachable h -> h !! q = Some s -> 0 <= size s <= capacity s).
Proof.
  assert (Hinit : forall r cap, 0 < cap -> count_ok (initial r cap))
    by (intros r cap Hpos; unfold count_ok; cbn; lia).
  split; [|split].
  - intros r cap h q h' tr Hrun Hq.
    apply init_returns_inv in Hrun as [Hpos [[-> _] | [-> ->]]];
      [contradiction|].
    exists (initial r cap). split; [apply lookup_insert_eq|].
    exact (Hinit r cap Hpos).
  - intros h h' Hh Hstep.
    exact (step_preserves count_ok (fun r cap _ => Hinit r cap)
             moves_count_ok h h' Hh Hstep).
  - intros h q s Hreach Hlive.
    exact (reachable_preserves count_ok (fun r cap _ => Hinit r cap)
             moves_count_ok h Hreach q s Hlive).
Qed.

Lemma count_invariant_witness :
  0 <= size (initial granted 2) <= capacity (initial granted 2).
Proof.
  apply (proj2 (proj2 count_invariant) fresh_heap 1 (initial granted 2)).
  - exact fresh_heap_reachable.
  - reflexivity.
Defined.

(** * Construction *)

(** C5.  [queue_init] with a capacity of zero or less stops at its
    assertion, whatever the environment.  With a capacity above zero it
    returns: the fresh address of a queue with [size = 0], [front = 0],
    [rear = -1], a cleared shutdown flag and the requested capacity when
    the environment grants the two allocations and the three pthread
    objects, and [NULL] with the heap untouched when it refuses one. *)
Theorem queue_init_capacity r cap h :
  (cap <= 0 -> queue_init r cap h = Aborts) /\
  (0 < cap ->
   if all_granted r then
     exists q s,
       queue_init r cap h = Returns q (<[q := s]> h) [] /\
       q <> NULL /\ h !! q = None /\
       capacity s = cap /\ Z.of_nat (length (buffer s)) = cap /\
       size s = 0 /\ front s = 0 /\ rear s = -1 /\
       is_shutdown_flag s = false
   else
     exists tr, queue_init r cap h = Returns NULL h tr).
Proof.
  split.
  - intros Hle. unfold queue_init.
    rewrite (proj2 (Z.ltb_ge 0 cap)) by lia. reflexivity.
  - intros Hpos. unfold queue_init, all_granted.
    rewrite (proj2 (Z.ltb_lt 0 cap)) by lia. cbn [negb].
    destruct (malloc_queue_ok r); cbn [negb andb]; [|eauto].
    destruct (malloc_buffer_ok r); cbn [negb andb]; [|eauto].
    destruct (mutex_init_rc r =? 0); cbn [negb andb]; [|eauto].
    destruct (cond_not_full_rc r =? 0); cbn [negb andb]; [|eauto].
    destruct (cond_not_empty_rc r =? 0); cbn [negb andb]; [|eauto].
    destruct (malloc_addr_fresh h) as [Hnn Hfree].
    eexists _, _. split; [reflexivity|]. cbn.
    rewrite length_fmap, length_seq.
    repeat split; auto; lia.
Qed.

Lemma queue_init_capacity_witness :
  queue_init granted 0 ∅ = Aborts /\
  exists q s,
    queue_init granted 2 ∅ = Returns q (<[q := s]> ∅) [] /\
    q <> NULL /\ (∅ : heap) !! q = None /\
    capacity s = 2 /\ Z.of_nat (length (buffer s)) = 2 /\
    size s = 0 /\ front s = 0 /\ rear s = -1 /\
    is_shutdown_flag s = false.
Proof.
  split.
  - apply (proj1 (queue_init_capacity granted 0 ∅)). lia.
  - apply (proj2 (queue_init_capacity granted 2 ∅)). lia.
Defined.

(** * Shutdown *)

Lemma closed_closed s : closed (closed s) = closed s.
Proof. reflexivity. Qed.

Lemma shutdown_times_closes n : forall h q s,
  q <> NULL -> h !! q = Some s ->
  exists tr, shutdown_times q (S n) h = Returns tt (<[q := closed s]> h) tr.
Proof.
  induction n as [|n IH]; intros h q s Hq Hlive.
  - eexists. cbn [shutdown_times].
    rewrite (bind_returns _ _ _ _ _ _ (shutdown_closes h q s Hq Hlive)).
    reflexivity.
  - destruct (IH (<[q := closed s]> h) q (closed s) Hq
                (lookup_insert_eq _ _ _)) as [tr Hrun].
    eexists. change (shutdown_times q (S (S n)))
      with (queue_shutdown q;; shutdown_times q (S n)).
    rewrite (bind_returns _ _ _ _ _ _ (shutdown_closes h q s Hq Hlive)).
    rewrite Hrun, closed_closed, insert_insert_eq. reflexivity.
Qed.

(** C6.  For a live queue: one call of [queue_shutdown] or any larger
    number of calls in a row all end in the same heap, in which the flag
    of the queue is set and, if it was set before, nothing has changed;
    and once the flag is set, any call any thread completes either frees
    the queue ([queue_destroy]) or leaves its flag set, so the flag stays
    set for as long as the queue is live. *)
Theorem shutdown_idempotent_monotone h q s :
  q <> NULL -> h !! q = Some s ->
  (exists h' s' tr,
     queue_shutdown q h = Returns tt h' tr /\
     h' !! q = Some s' /\ is_shutdown_flag s' = true /\
     (is_shutdown_flag s = true -> h' = h) /\
     forall n, exists tr',
       shutdown_times q (S n) h = Returns tt h' tr') /\
  (is_shutdown_flag s = true ->
   (forall h', step h h' ->
      h' !! q = None \/
      exists s', h' !! q = Some s' /\ is_shutdown_flag s' = true) /\
   (forall h', rtc (step_keeping q) h h' ->
      exists s', h' !! q = Some s' /\ is_shutdown_flag s' = true)).
Proof.
  intros Hq Hlive. split.
  - exists (<[q := closed s]> h), (closed s),
      [MutexLock q; CondBroadcast q not_empty; CondBroadcast q not_full;
       MutexUnlock q].
    split; [exact (shutdown_closes h q s Hq Hlive)|].
    split; [apply lookup_insert_eq|]. split; [reflexivity|]. split.
    + intros Hflag. apply insert_id. rewrite Hlive. f_equal.
      destruct s; cbn in *. unfold closed. cbn. congruence.
    + intros n. exact (shutdown_times_closes n h q s Hq Hlive).
  - intros Hflag. split.
    + intros h' Hstep.
      destruct (step_at h h' q s Hstep Hlive) as [E | [E | (s' & Hm & E)]].
      * left. exact E.
      * right. exists s. split; assumption.
      * right. exists s'. split; [exact E|].
        exact (moves_flag s s' Hflag Hm).
    + intros h' Hrun.
      exact (kept_stable (fun s => is_shutdown_flag s = true) q moves_flag
               h h' Hrun s Hlive Hflag).
Qed.

Lemma shutdown_idempotent_monotone_witness :
  (exists h' s' tr,
     queue_shutdown 1 fresh_heap = Returns tt h' tr /\
     h' !! 1 = Some s' /\ is_shutdown_flag s' = true /\
     (false = true -> h' = fresh_heap) /\
     forall n, exists tr',
       shutdown_times 1 (S n) fresh_heap = Returns tt h' tr') /\
  (forall h', step null_item_heap h' ->
     h' !! 1 = None \/
     exists s', h' !! 1 = Some s' /\ is_shutdown_flag s' = true).
Proof.
  split.
  - apply (proj1 (shutdown_idempotent_monotone fresh_heap 1
             (initial granted 2) ltac:(discriminate) eq_refl)).
  - apply (proj2 (shutdown_idempotent_monotone null_item_heap 1
             {| buffer := [NULL]; capacity := 1; size := 1; front := 0;
                rear := 0; is_shutdown_flag := true |}
             ltac:(discriminate) eq_refl) eq_refl).
Defined.

(** C7.  [queue_shutdown] on a live queue returns with the flag of that
    queue set and with its buffer, capacity, size, front and rear as they
    were; every other queue in the heap is untouched; and on a reachable
    heap the items buffered before the call are exactly what the
    following [dequeue] calls return, oldest first. *)
Theorem shutdown_frame h q s :
  q <> NULL -> h !! q = Some s ->
  exists h' s' tr,
    queue_shutdown q h = Returns tt h' tr /\
    h' !! q = Some s' /\
    buffer s' = buffer s /\ capacity s' = capacity s /\
    size s' = size s /\ front s' = front s /\ rear s' = rear s /\
    is_shutdown_flag s' = true /\
    (forall q', q' <> q -> h' !! q' = h !! q') /\
    (reachable h ->
     exists h'' tr',
       dequeue_n q (Z.to_nat (size s)) h' = Returns (contents s) h'' tr').
Proof.
  intros Hq Hlive.
  exists (<[q := closed s]> h), (closed s),
    [MutexLock q; CondBroadcast q not_empty; CondBroadcast q not_full;
     MutexUnlock q].
  split; [exact (shutdown_closes h q s Hq Hlive)|].
  split; [apply lookup_insert_eq|].
  do 6 (split; [reflexivity|]).
  split.
  - intros q' Hne. apply lookup_insert_ne. congruence.
  - intros Hreach.
    pose proof (reachable_wf h q s Hreach Hlive) as Hwf.
    assert (Hwfc : wf (closed s))
      by exact (moves_wf s _ Hwf (moves_shutdown s)).
    assert (Hs : 0 <= size s) by (destruct Hwf as [_ _ [? _] _ _ _]; lia).
    destruct (dequeue_n_takes (Z.to_nat (size s)) (<[q := closed s]> h) q
                (closed s) Hq (lookup_insert_eq _ _ _) Hwfc
                ltac:(cbn [closed size]; lia))
      as (s1 & tr1 & Hrun & _).
    rewrite contents_closed, firstn_all2 in Hrun
      by (rewrite contents_length; lia).
    eexists _, _. exact Hrun.
Qed.

Lemma shutdown_frame_witness :
  exists h' s' tr,
    queue_shutdown 1 wrapped_heap = Returns tt h' tr /\
    h' !! 1 = Some s' /\
    buffer s' = [13; 12] /\ capacity s' = 2 /\
    size s' = 2 /\ front s' = 1 /\ rear s' = 0 /\
    is_shutdown_flag s' = true /\
    (forall q', q' <> 1 -> h' !! q' = wrapped_heap !! q') /\
    exists h'' tr', dequeue_n 1 2 h' = Returns [12; 13] h'' tr'.
Proof.
  destruct (shutdown_frame wrapped_heap 1
              {| buffer := [13; 12]; capacity := 2; size := 2; front := 1;
                 rear := 0; is_shutdown_flag := false |}
              ltac:(discriminate) eq_refl)
    as (h' & s' & tr & Hrun & Hlive & Hb & Hc & Hs & Hf & Hr & Hflag
        & Hothers & Hdrain).
  exists h', s', tr.
  split; [exact Hrun|]. split; [exact Hlive|]. split; [exact Hb|].
  split; [exact Hc|]. split; [exact Hs|]. split; [exact Hf|].
  split; [exact Hr|]. split; [exact Hflag|]. split; [exact Hothers|].
  exact (Hdrain wrapped_heap_reachable).
Defined.

(** * The tail slot *)

(** C8.  On a reachable heap every live queue satisfies
    [(rear + 1) mod capacity = (front + size) mod capacity], the C
    expression [(rear + 1) % capacity] has that value, and an [enqueue]
    that finds room writes its item into that slot and makes it the new
    [rear]; a queue fresh from [queue_init] has [rear = -1], [front = 0]
    and [size = 0]. *)
Theorem tail_index h q s :
  reachable h -> h !! q = Some s ->
  (rear s + 1) `mod` capacity s = (front s + size s) `mod` capacity s /\
  int_rem (rear s + 1) (capacity s)
    = Some ((front s + size s) `mod` capacity s) /\
  (forall data,
     is_shutdown_flag s = false -> size s < capacity s ->
     exists s' tr,
       enqueue q data h = Returns tt (<[q := s']> h) tr /\
       rear s' = (front s + size s) `mod` capacity s /\
       buffer s' =
         <[Z.to_nat ((front s + size s) `mod` capacity s) := data]>
           (buffer s) /\
       size s' = size s + 1 /\ front s' = front s) /\
  (forall r cap h0 q0 h1 tr,
     queue_init r cap h0 = Returns q0 h1 tr -> q0 <> NULL ->
     exists s0, h1 !! q0 = Some s0 /\
                rear s0 = -1 /\ front s0 = 0 /\ size s0 = 0).
Proof.
  intros Hreach Hlive.
  pose proof (reachable_wf h q s Hreach Hlive) as Hwf.
  pose proof (reachable_not_null h q s Hreach Hlive) as Hq.
  split; [exact (wf_tail s Hwf)|]. split; [|split].
  - destruct Hwf as [Hc _ _ _ Hr Ht].
    rewrite int_rem_defined by lia. rewrite Ht. reflexivity.
  - intros data Hflag Hlt.
    exists (pushed s data),
      [MutexLock q; CondSignal q not_empty; MutexUnlock q].
    split; [apply enqueue_pushes; assumption|].
    repeat split.
  - intros r cap h0 q0 h1 tr Hrun Hq0.
    apply init_returns_inv in Hrun as [_ [[-> _] | [-> ->]]];
      [contradiction|].
    exists (initial r cap). split; [apply lookup_insert_eq|].
    repeat split.
Qed.

Lemma tail_index_witness :
  (rear (initial granted 2) + 1) `mod` 2 = (0 + 0) `mod` 2 /\
  exists s' tr,
    enqueue 1 11 fresh_heap = Returns tt (<[1 := s']> fresh_heap) tr /\
    rear s' = 0 /\ buffer s' = [11; 7] /\ size s' = 1 /\ front s' = 0.
Proof.
  pose proof (tail_index fresh_heap 1 (initial granted 2)
                fresh_heap_reachable eq_refl) as (H1 & _ & H3 & _).
  split; [exact H1|]. exact (H3 11 eq_refl eq_refl).
Defined.

(** * NULL handles and NULL items *)

(** C9.  On the [NULL] handle every operation returns at once, in any
    heap, without touching the heap and without any lock or signal call:
    [enqueue], [queue_shutdown] and [queue_destroy] return nothing,
    [dequeue] returns [NULL], [is_empty] and [is_shutdown] return true. *)
Theorem null_handle h data :
  enqueue NULL data h = Returns tt h [] /\
  dequeue NULL h = Returns NULL h [] /\
  queue_shutdown NULL h = Returns tt h [] /\
  queue_destroy NULL h = Returns tt h [] /\
  is_empty NULL h = Returns true h [] /\
  is_shutdown NULL h = Returns true h [].
Proof. repeat split. Qed.

(** C10.  On a reachable heap, for a live queue that is empty and not
    shut down.  First run: [enqueue(q, NULL)] inserts the item (the
    buffer then holds exactly [NULL], [size] is 1, [not_empty] is
    signalled) and the following [dequeue] removes it ([size] back to 0,
    buffer empty, [not_full] signalled) and returns [NULL].  Second run:
    [queue_shutdown] leaves the buffer empty and the following [dequeue]
    removes nothing (heap unchanged, nothing signalled) and returns
    [NULL].  So [dequeue] returns the same value, [NULL], for a removed
    [NULL] item and for the no-more-data result. *)
Theorem null_item_ambiguous h q s :
  reachable h -> h !! q = Some s ->
  size s = 0 -> is_shutdown_flag s = false ->
  (exists s1 s1',
     enqueue q NULL h =
       Returns tt (<[q := s1]> h)
         [MutexLock q; CondSignal q not_empty; MutexUnlock q] /\
     size s1 = 1 /\ contents s1 = [NULL] /\
     dequeue q (<[q := s1]> h) =
       Returns NULL (<[q := s1']> h)
         [MutexLock q; CondSignal q not_full; MutexUnlock q] /\
     size s1' = 0 /\ contents s1' = [] /\
     is_shutdown_flag s1' = false /\
     (enqueue q NULL;; dequeue q) h =
       Returns NULL (<[q := s1']> h)
         [MutexLock q; CondSignal q not_empty; MutexUnlock q;
          MutexLock q; CondSignal q not_full; MutexUnlock q]) /\
  (exists s2,
     queue_shutdown q h =
       Returns tt (<[q := s2]> h)
         [MutexLock q; CondBroadcast q not_empty; CondBroadcast q not_full;
          MutexUnlock q] /\
     size s2 = 0 /\ contents s2 = [] /\ is_shutdown_flag s2 = true /\
     dequeue q (<[q := s2]> h) =
       Returns NULL (<[q := s2]> h) [MutexLock q; MutexUnlock q] /\
     (queue_shutdown q;; dequeue q) h =
       Returns NULL (<[q := s2]> h)
         [MutexLock q; CondBroadcast q not_empty; CondBroadcast q not_full;
          MutexUnlock q; MutexLock q; MutexUnlock q]).
Proof.
  intros Hreach Hlive Hz Hflag.
  pose proof (reachable_wf h q s Hreach Hlive) as Hwf.
  pose proof (reachable_not_null h q s Hreach Hlive) as Hq.
  assert (Hlt : size s < capacity s)
    by (destruct Hwf as [? _ _ _ _ _]; lia).
  pose proof (moves_pushed s NULL Hwf Hflag Hlt) as Hmv.
  pose proof (moves_wf s _ Hwf Hmv) as Hwf1.
  assert (Hpos1 : 0 < size (pushed s NULL)) by (cbn [pushed size]; lia).
  assert (E : contents s = []).
  { apply nil_length_inv. rewrite contents_length, Hz. reflexivity. }
  pose proof (contents_pushed s NULL Hwf Hlt) as Hc1.
  rewrite E in Hc1. cbn [app] in Hc1.
  pose proof (contents_popped _ Hwf1 Hpos1) as Hc2.
  rewrite Hc1 in Hc2. injection Hc2 as Hhead Hrest.
  pose proof (enqueue_pushes h q s Hq Hlive NULL Hwf Hlt Hflag) as Henq.
  pose proof (dequeue_pops (<[q := pushed s NULL]> h) q (pushed s NULL) Hq
                (lookup_insert_eq _ _ _) Hwf1 Hpos1) as Hdeq.
  rewrite <- Hhead, insert_insert_eq in Hdeq.
  pose proof (shutdown_closes h q s Hq Hlive) as Hshut.
  pose proof (dequeue_empty_shutdown (<[q := closed s]> h) q (closed s) Hq
                (lookup_insert_eq _ _ _) Hz eq_refl) as Hdeq2.
  split.
  - exists (pushed s NULL), (popped (pushed s NULL)).
    split; [exact Henq|].
    split; [cbn [pushed size]; lia|].
    split; [exact Hc1|].
    split; [exact Hdeq|].
    split; [cbn [pushed popped size]; lia|].
    split; [symmetry; exact Hrest|].
    split; [exact Hflag|].
    rewrite (bind_returns _ _ _ _ _ _ Henq), Hdeq. reflexivity.
  - exists (closed s).
    split; [exact Hshut|].
    split; [exact Hz|].
    split; [rewrite contents_closed; exact E|].
    split; [reflexivity|].
    split; [exact Hdeq2|].
    rewrite (bind_returns _ _ _ _ _ _ Hshut), Hdeq2. reflexivity.
Qed.

Lemma null_item_ambiguous_witness :
  (exists s1 s1',
     enqueue 1 NULL fresh_heap =
       Returns tt (<[1 := s1]> fresh_heap)
         [MutexLock 1; CondSignal 1 not_empty; MutexUnlock 1] /\
     size s1 = 1 /\ contents s1 = [NULL] /\
     dequeue 1 (<[1 := s1]> fresh_heap) =
       Returns NULL (<[1 := s1']> fresh_heap)
         [MutexLock 1; CondSignal 1 not_full; MutexUnlock 1] /\
     size s1' = 0 /\ contents s1' = [] /\
     is_shutdown_flag s1' = false /\
     (enqueue 1 NULL;; dequeue 1) fresh_heap =
       Returns NULL (<[1 := s1']> fresh_heap)
         [MutexLock 1; CondSignal 1 not_empty; MutexUnlock 1;
          MutexLock 1; CondSignal 1 not_full; MutexUnlock 1]) /\
  (exists s2,
     queue_shutdown 1 fresh_heap =
       Returns tt (<[1 := s2]> fresh_heap)
         [MutexLock 1; CondBroadcast 1 not_empty; CondBroadcast 1 not_full;
          MutexUnlock 1] /\
     size s2 = 0 /\ contents s2 = [] /\ is_shutdown_flag s2 = true /\
     dequeue 1 (<[1 := s2]> fresh_heap) =
       Returns NULL (<[1 := s2]> fresh_heap) [MutexLock 1; MutexUnlock 1] /\
     (queue_shutdown 1;; dequeue 1) fresh_heap =
       Returns NULL (<[1 := s2]> fresh_heap)
         [MutexLock 1; CondBroadcast 1 not_empty; CondBroadcast 1 not_full;
          MutexUnlock 1; MutexLock 1; MutexUnlock 1]).
Proof.
  apply (null_item_ambiguous fresh_heap 1 (initial granted 2)).
  - exact fresh_heap_reachable.
  - reflexivity.
  - reflexivity.
  - reflexivity.
Defined.

(** * Blocking and hand-over *)

Lemma full_heap_reachable : reachable full_heap.
Proof.
  eapply reachable_step; [eapply reachable_step|].
  - exact fresh_heap_reachable.
  - eapply (step_enqueue 1 11). vm_compute. reflexivity.
  - eapply (step_enqueue 1 12). vm_compute. reflexivity.
Qed.

(** X1.  On a live queue [enqueue] blocks exactly when the queue is full
    and not shut down; it then sleeps on [not_full] having only taken the
    lock, with the heap as it was. *)
Theorem enqueue_blocks_iff_full h q s data :
  q <> NULL -> h !! q = Some s ->
  ((exists q' c h' tr, enqueue q data h = Waits q' c h' tr) <->
   size s = capacity s /\ is_shutdown_flag s = false) /\
  (size s = capacity s -> is_shutdown_flag s = false ->
   enqueue q data h = Waits q not_full h [MutexLock q]).
Proof.
  intros Hq Hlive. split.
  - exact (enqueue_waits_iff h q s data Hq Hlive).
  - intros Hfull Hflag.
    exact (enqueue_full_waits h q s Hq Hlive data Hfull Hflag).
Qed.

Lemma enqueue_blocks_iff_full_witness :
  enqueue 1 13 full_heap = Waits 1 not_full full_heap [MutexLock 1].
Proof.
  apply (proj2 (enqueue_blocks_iff_full full_heap 1
           {| buffer := [11; 12]; capacity := 2; size := 2; front := 0;
              rear := 1; is_shutdown_flag := false |} 13
           ltac:(discriminate) eq_refl)).
  - reflexivity.
  - reflexivity.
Defined.

(** X2.  On a live queue [dequeue] blocks exactly when the queue is empty
    and not shut down; it then sleeps on [not_empty] having only taken
    the lock, with the heap as it was. *)
Theorem dequeue_blocks_iff_empty h q s :
  q <> NULL -> h !! q = Some s ->
  ((exists q' c h' tr, dequeue q h = Waits q' c h' tr) <->
   size s = 0 /\ is_shutdown_flag s = false) /\
  (size s = 0 -> is_shutdown_flag s = false ->
   dequeue q h = Waits q not_empty h [MutexLock q]).
Proof.
  intros Hq Hlive. split.
  - exact (dequeue_waits_iff h q s Hq Hlive).
  - intros Hz Hflag.
    exact (dequeue_empty_waits h q s Hq Hlive Hz Hflag).
Qed.

Lemma dequeue_blocks_iff_empty_witness :
  dequeue 1 fresh_heap = Waits 1 not_empty fresh_heap [MutexLock 1].
Proof.
  apply (proj2 (dequeue_blocks_iff_empty fresh_heap 1 (initial granted 2)
           ltac:(discriminate) eq_refl)).
  - reflexivity.
  - reflexivity.
Defined.

(** X3.  A producer blocked on a full queue is released by one
    [dequeue]: the [dequeue] returns the oldest item and signals
    [not_full], and the retried [enqueue] then returns with its item
    last in line and the queue full again. *)
Theorem full_queue_handoff h q s data :
  reachable h -> h !! q = Some s ->
  size s = capacity s -> is_shutdown_flag s = false ->
  enqueue q data h = Waits q not_full h [MutexLock q] /\
  exists x rest s1 s2,
    contents s = x :: rest /\
    dequeue q h =
      Returns x (<[q := s1]> h)
        [MutexLock q; CondSignal q not_full; MutexUnlock q] /\
    enqueue q data (<[q := s1]> h) =
      Returns tt (<[q := s2]> h)
        [MutexLock q; CondSignal q not_empty; MutexUnlock q] /\
    contents s2 = rest ++ [data] /\ size s2 = capacity s2.
Proof.
  intros Hreach Hlive Hfull Hflag.
  pose proof (reachable_wf h q s Hreach Hlive) as Hwf.
  pose proof (reachable_not_null h q s Hreach Hlive) as Hq.
  assert (Hpos : 0 < size s) by (destruct Hwf as [? _ _ _ _ _]; lia).
  pose proof (moves_wf s _ Hwf (moves_popped s Hwf Hpos)) as Hwf1.
  split; [exact (enqueue_full_waits h q s Hq Hlive data Hfull Hflag)|].
  exists (slot s 0), (contents (popped s)), (popped s),
    (pushed (popped s) data).
  split; [exact (contents_popped s Hwf Hpos)|].
  split; [exact (dequeue_pops h q s Hq Hlive Hwf Hpos)|].
  split.
  - rewrite (enqueue_pushes _ q (popped s) Hq (lookup_insert_eq _ _ _) data
               Hwf1 ltac:(cbn [popped size capacity]; lia) Hflag).
    rewrite insert_insert_eq. reflexivity.
  - split; [apply contents_pushed; [exact Hwf1|cbn [popped size capacity]; lia]|].
    cbn [pushed popped size capacity]. lia.
Qed.

Lemma full_queue_handoff_witness :
  enqueue 1 13 full_heap = Waits 1 not_full full_heap [MutexLock 1] /\
  exists x rest s1 s2,
    contents {| buffer := [11; 12]; capacity := 2; size := 2; front := 0;
                rear := 1; is_shutdown_flag := false |} = x :: rest /\
    dequeue 1 full_heap =
      Returns x (<[1 := s1]> full_heap)
        [MutexLock 1; CondSignal 1 not_full; MutexUnlock 1] /\
    enqueue 1 13 (<[1 := s1]> full_heap) =
      Returns tt (<[1 := s2]> full_heap)
        [MutexLock 1; CondSignal 1 not_empty; MutexUnlock 1] /\
    contents s2 = rest ++ [13] /\ size s2 = capacity s2.
Proof.
  apply (full_queue_handoff full_heap 1
           {| buffer := [11; 12]; capacity := 2; size := 2; front := 0;
              rear := 1; is_shutdown_flag := false |} 13).
  - exact full_heap_reachable.
  - reflexivity.
  - reflexivity.
  - reflexivity.
Defined.

(** X4.  A consumer blocked on an empty queue is released by one
    [enqueue]: the [enqueue] returns and signals [not_empty], and the
    retried [dequeue] then returns exactly that item and leaves the queue
    empty. *)
Theorem empty_queue_handoff h q s data :
  reachable h -> h !! q = Some s ->
  size s = 0 -> is_shutdown_flag s = false ->
  dequeue q h = Waits q not_empty h [MutexLock q] /\
  exists s1 s2,
    enqueue q data h =
      Returns tt (<[q := s1]> h)
        [MutexLock q; CondSignal q not_empty; MutexUnlock q] /\
    dequeue q (<[q := s1]> h) =
      Returns data (<[q := s2]> h)
        [MutexLock q; CondSignal q not_full; MutexUnlock q] /\
    contents s2 = [] /\ size s2 = 0.
Proof.
  intros Hreach Hlive Hz Hflag.
  pose proof (reachable_wf h q s Hreach Hlive) as Hwf.
  pose proof (reachable_not_null h q s Hreach Hlive) as Hq.
  assert (Hlt : size s < capacity s) by (destruct Hwf as [? _ _ _ _ _]; lia).
  pose proof (moves_wf s _ Hwf (moves_pushed s data Hwf Hflag Hlt)) as Hwf1.
  assert (Hpos1 : 0 < size (pushed s data)) by (cbn [pushed size]; lia).
  assert (E : contents s = []).
  { apply nil_length_inv. rewrite contents_length, Hz. reflexivity. }
  pose proof (contents_pushed s data Hwf Hlt) as Hc.
  rewrite (contents_popped _ Hwf1 Hpos1), E in Hc. cbn [app] in Hc.
  injection Hc as Hhead Hrest.
  split; [exact (dequeue_empty_waits h q s Hq Hlive Hz Hflag)|].
  exists (pushed s data), (popped (pushed s data)).
  split; [exact (enqueue_pushes h q s Hq Hlive data Hwf Hlt Hflag)|].
  split.
  - rewrite (dequeue_pops _ q (pushed s data) Hq (lookup_insert_eq _ _ _)
               Hwf1 Hpos1).
    rewrite insert_insert_eq, Hhead. reflexivity.
  - split; [exact Hrest|]. cbn [pushed popped size]. lia.
Qed.

Lemma empty_queue_handoff_witness :
  dequeue 1 fresh_heap = Waits 1 not_empty fresh_heap [MutexLock 1] /\
  exists s1 s2,
    enqueue 1 11 fresh_heap =
      Returns tt (<[1 := s1]> fresh_heap)
        [MutexLock 1; CondSignal 1 not_empty; MutexUnlock 1] /\
    dequeue 1 (<[1 := s1]> fresh_heap) =
      Returns 11 (<[1 := s2]> fresh_heap)
        [MutexLock 1; CondSignal 1 not_full; MutexUnlock 1] /\
    contents s2 = [] /\ size s2 = 0.
Proof.
  apply (empty_queue_handoff fresh_heap 1 (initial granted 2) 11).
  - exact fresh_heap_reachable.
  - reflexivity.
  - reflexivity.
  - reflexivity.
Defined.

(** X5.  [queue_shutdown] releases blocked callers on a live queue that
    was not yet shut down: it broadcasts on both condition variables;
    afterwards an [enqueue] that was blocked on the full queue returns
    without inserting, and a [dequeue] that was blocked on the empty
    queue returns [NULL]; both leave the heap as the shutdown left it. *)
Theorem shutdown_releases_blocked h q s data :
  q <> NULL -> h !! q = Some s -> is_shutdown_flag s = false ->
  exists h1,
    queue_shutdown q h =
      Returns tt h1
        [MutexLock q; CondBroadcast q not_empty; CondBroadcast q not_full;
         MutexUnlock q] /\
    (size s = capacity s ->
     enqueue q data h = Waits q not_full h [MutexLock q] /\
     enqueue q data h1 = Returns tt h1 [MutexLock q; MutexUnlock q]) /\
    (size s = 0 ->
     dequeue q h = Waits q not_empty h [MutexLock q] /\
     dequeue q h1 = Returns NULL h1 [MutexLock q; MutexUnlock q]).
Proof.
  intros Hq Hlive Hflag. exists (<[q := closed s]> h).
  split; [exact (shutdown_closes h q s Hq Hlive)|]. split.
  - intros Hfull.
    split; [exact (enqueue_full_waits h q s Hq Hlive data Hfull Hflag)|].
    exact (enqueue_shutdown_drops _ q (closed s) Hq (lookup_insert_eq _ _ _)
             data eq_refl).
  - intros Hz.
    split; [exact (dequeue_empty_waits h q s Hq Hlive Hz Hflag)|].
    exact (dequeue_empty_shutdown _ q (closed s) Hq (lookup_insert_eq _ _ _)
             Hz eq_refl).
Qed.

Lemma shutdown_releases_blocked_witness :
  (exists h1,
     queue_shutdown 1 full_heap =
       Returns tt h1
         [MutexLock 1; CondBroadcast 1 not_empty; CondBroadcast 1 not_full;
          MutexUnlock 1] /\
     ((2 : Z) = 2 ->
      enqueue 1 13 full_heap = Waits 1 not_full full_heap [MutexLock 1] /\
      enqueue 1 13 h1 = Returns tt h1 [MutexLock 1; MutexUnlock 1]) /\
     ((2 : Z) = 0 ->
      dequeue 1 full_heap = Waits 1 not_empty full_heap [MutexLock 1] /\
      dequeue 1 h1 = Returns NULL h1 [MutexLock 1; MutexUnlock 1])).
Proof.
  apply (shutdown_releases_blocked full_heap 1
           {| buffer := [11; 12]; capacity := 2; size := 2; front := 0;
              rear := 1; is_shutdown_flag := false |} 13).
  - discriminate.
  - reflexivity.
  - reflexivity.
Defined.

(** * The status queries *)

(** X6.  On a reachable heap [is_empty] on a live queue returns true
    exactly when no item is buffered, and leaves the heap as it was. *)
Theorem is_empty_iff_no_items h q s :
  reachable h -> h !! q = Some s ->
  exists b,
    is_empty q h = Returns b h [MutexLock q; MutexUnlock q] /\
    (b = true <-> contents s = []).
Proof.
  intros Hreach Hlive.
  pose proof (reachable_wf h q s Hreach Hlive) as Hwf.
  pose proof (reachable_not_null h q s Hreach Hlive) as Hq.
  assert (Hs : 0 <= size s) by (destruct Hwf as [_ _ [? _] _ _ _]; lia).
  exists (size s =? 0).
  split; [exact (is_empty_reads h q s Hq Hlive)|].
  rewrite Z.eqb_eq. split.
  - intros Hz. apply nil_length_inv. rewrite contents_length, Hz. reflexivity.
  - intros E. apply (f_equal length) in E.
    rewrite contents_length in E. cbn [length] in E. lia.
Qed.

Lemma is_empty_iff_no_items_witness :
  exists b,
    is_empty 1 full_heap = Returns b full_heap [MutexLock 1; MutexUnlock 1] /\
    (b = true <->
     contents {| buffer := [11; 12]; capacity := 2; size := 2; front := 0;
                 rear := 1; is_shutdown_flag := false |} = []).
Proof.
  apply (is_empty_iff_no_items full_heap 1
           {| buffer := [11; 12]; capacity := 2; size := 2; front := 0;
              rear := 1; is_shutdown_flag := false |}).
  - exact full_heap_reachable.
  - reflexivity.
Defined.

Lemma queue_init_outcome r cap h :
  0 < cap ->
  if all_granted r then
    queue_init r cap h =
      Returns (malloc_addr h) (<[malloc_addr h := initial r cap]> h) []
  else exists tr, queue_init r cap h = Returns NULL h tr.
Proof.
  intros Hpos. unfold queue_init, all_granted.
  rewrite (proj2 (Z.ltb_lt 0 cap)) by lia. cbn [negb].
  destruct (malloc_queue_ok r); cbn [negb andb]; [|eauto].
  destruct (malloc_buffer_ok r); cbn [negb andb]; [|eauto].
  destruct (mutex_init_rc r =? 0); cbn [negb andb]; [|eauto].
  destruct (cond_not_full_rc r =? 0); cbn [negb andb]; [|eauto].
  destruct (cond_not_empty_rc r =? 0); cbn [negb andb]; [|eauto].
  reflexivity.
Qed.

(** X7.  Querying the handle [queue_init] returns, for a capacity above
    zero: [is_empty] answers true, and [is_shutdown] answers false for a
    constructed queue but true for the [NULL] handle of a failed
    construction. *)
Theorem fresh_queue_status r cap h :
  0 < cap ->
  exists q h' tr,
    (q <- queue_init r cap;;
     e <- is_empty q;;
     d <- is_shutdown q;;
     ret (q, e, d)) h = Returns (q, true, negb (all_granted r)) h' tr /\
    (q = NULL <-> all_granted r = false).
Proof.
  intros Hpos.
  pose proof (queue_init_outcome r cap h Hpos) as Hinit.
  destruct (malloc_addr_fresh h) as [Hq _].
  destruct (all_granted r).
  - exists (malloc_addr h), (<[malloc_addr h := initial r cap]> h),
      ([] ++ [MutexLock (malloc_addr h); MutexUnlock (malloc_addr h)]
          ++ [MutexLock (malloc_addr h); MutexUnlock (malloc_addr h)] ++ []).
    split.
    + rewrite (bind_returns _ _ _ _ _ _ Hinit).
      rewrite (bind_returns _ _ _ _ _ _
                 (is_empty_reads _ _ _ Hq (lookup_insert_eq _ _ _))).
      rewrite (bind_returns _ _ _ _ _ _
                 (is_shutdown_reads _ _ _ Hq (lookup_insert_eq _ _ _))).
      reflexivity.
    + split; [contradiction | discriminate].
  - destruct Hinit as [tr Hrun].
    exists NULL, h, (tr ++ [] ++ [] ++ []).
    split; [|split; reflexivity].
    rewrite (bind_returns _ _ _ _ _ _ Hrun). reflexivity.
Qed.

Lemma fresh_queue_status_witness :
  exists q h' tr,
    (q <- queue_init granted 2;;
     e <- is_empty q;;
     d <- is_shutdown q;;
     ret (q, e, d)) ∅ = Returns (q, true, false) h' tr /\
    (q = NULL <-> true = false).
Proof.
  apply (fresh_queue_status granted 2 ∅). lia.
Defined.

(** X8.  After [queue_shutdown] on a live queue [is_shutdown] answers
    true and [is_empty] answers what it answered before the shutdown. *)
Theorem shutdown_then_status h q s :
  q <> NULL -> h !! q = Some s ->
  exists h1 tr1 tr2 tr3,
    (queue_shutdown q;; is_shutdown q) h = Returns true h1 tr1 /\
    (queue_shutdown q;; is_empty q) h = Returns (size s =? 0) h1 tr2 /\
    is_empty q h = Returns (size s =? 0) h tr3.
Proof.
  intros Hq Hlive.
  eexists _, _, _, _. split; [|split].
  - rewrite (bind_returns _ _ _ _ _ _ (shutdown_closes h q s Hq Hlive)).
    rewrite (is_shutdown_reads _ q (closed s) Hq (lookup_insert_eq _ _ _)).
    reflexivity.
  - rewrite (bind_returns _ _ _ _ _ _ (shutdown_closes h q s Hq Hlive)).
    rewrite (is_empty_reads _ q (closed s) Hq (lookup_insert_eq _ _ _)).
    reflexivity.
  - exact (is_empty_reads h q s Hq Hlive).
Qed.

Lemma shutdown_then_status_witness :
  exists h1 tr1 tr2 tr3,
    (queue_shutdown 1;; is_shutdown 1) full_heap = Returns true h1 tr1 /\
    (queue_shutdown 1;; is_empty 1) full_heap = Returns false h1 tr2 /\
    is_empty 1 full_heap = Returns false full_heap tr3.
Proof.
  apply (shutdown_then_status full_heap 1
           {| buffer := [11; 12]; capacity := 2; size := 2; front := 0;
              rear := 1; is_shutdown_flag := false |}).
  - discriminate.
  - reflexivity.
Defined.

(** * Destruction and separate queues *)

Lemma dangling_undefined h q data :
  q <> NULL -> h !! q = None ->
  enqueue q data h = Undefined /\ dequeue q h = Undefined /\
  queue_shutdown q h = Undefined /\ is_empty q h = Undefined /\
  is_shutdown q h = Undefined /\ queue_destroy q h = Undefined.
Proof.
  intros Hq Hnone.
  assert (Hs : queue_shutdown q h = Undefined).
  { unfold_call. rewrite (eqb_NULL_false q Hq), Hnone. reflexivity. }
  repeat split; try exact Hs.
  - unfold_call. rewrite (eqb_NULL_false q Hq), Hnone. reflexivity.
  - unfold_call. rewrite (eqb_NULL_false q Hq), Hnone. reflexivity.
  - unfold_call. rewrite (eqb_NULL_false q Hq), Hnone. reflexivity.
  - unfold_call. rewrite (eqb_NULL_false q Hq), Hnone. reflexivity.
  - unfold queue_destroy. rewrite (eqb_NULL_false q Hq).
    unfold bind at 1. rewrite Hs. reflexivity.
Qed.

(** X9.  [queue_destroy] on a live queue returns after broadcasting on
    both condition variables, and frees exactly that queue: its address
    is no longer live and every other queue is as before.  Any later call
    on the freed handle, a second [queue_destroy] included, is undefined
    behaviour. *)
Theorem destroy_frees_queue h q s data :
  q <> NULL -> h !! q = Some s ->
  exists h' tr,
    queue_destroy q h = Returns tt h' tr /\
    h' !! q = None /\
    (forall q', q' <> q -> h' !! q' = h !! q') /\
    CondBroadcast q not_full ∈ tr /\ CondBroadcast q not_empty ∈ tr /\
    enqueue q data h' = Undefined /\ dequeue q h' = Undefined /\
    queue_shutdown q h' = Undefined /\ is_empty q h' = Undefined /\
    is_shutdown q h' = Undefined /\ queue_destroy q h' = Undefined.
Proof.
  intros Hq Hlive. eexists _, _.
  split; [exact (destroy_frees h q s Hq Hlive)|].
  split; [apply lookup_delete_eq|].
  split; [intros q' Hne; apply lookup_delete_ne; congruence|].
  split; [set_solver|]. split; [set_solver|].
  exact (dangling_undefined (delete q h) q data Hq (lookup_delete_eq _ _)).
Qed.

Lemma destroy_frees_queue_witness :
  exists h' tr,
    queue_destroy 1 full_heap = Returns tt h' tr /\
    h' !! 1 = None /\
    (forall q', q' <> 1 -> h' !! q' = full_heap !! q') /\
    CondBroadcast 1 not_full ∈ tr /\ CondBroadcast 1 not_empty ∈ tr /\
    enqueue 1 13 h' = Undefined /\ dequeue 1 h' = Undefined /\
    queue_shutdown 1 h' = Undefined /\ is_empty 1 h' = Undefined /\
    is_shutdown 1 h' = Undefined /\ queue_destroy 1 h' = Undefined.
Proof.
  apply (destroy_frees_queue full_heap 1
           {| buffer := [11; 12]; capacity := 2; size := 2; front := 0;
              rear := 1; is_shutdown_flag := false |} 13).
  - discriminate.
  - reflexivity.
Defined.

(** X10.  A call on one handle never touches another queue: whatever
    [enqueue], [dequeue], [queue_shutdown], [queue_destroy], [is_empty]
    or [is_shutdown] on [q] returns, the struct at any other address is
    as before; and [queue_init] leaves every queue that was live as it
    was. *)
Theorem calls_touch_one_queue h h' q q' tr :
  q' <> q ->
  (forall data, enqueue q data h = Returns tt h' tr -> h' !! q' = h !! q') /\
  (forall x, dequeue q h = Returns x h' tr -> h' !! q' = h !! q') /\
  (queue_shutdown q h = Returns tt h' tr -> h' !! q' = h !! q') /\
  (queue_destroy q h = Returns tt h' tr -> h' !! q' = h !! q') /\
  (forall b, is_empty q h = Returns b h' tr -> h' !! q' = h !! q') /\
  (forall b, is_shutdown q h = Returns b h' tr -> h' !! q' = h !! q') /\
  (forall r cap q0 s, queue_init r cap h = Returns q0 h' tr ->
                      h !! q' = Some s -> h' !! q' = Some s).
Proof.
  intros Hne.
  assert (Hins : forall h0 : heap,
            h0 = h \/
            (exists s s', h !! q = Some s /\ moves s s' /\ h0 = <[q := s']> h) ->
            h0 !! q' = h !! q').
  { intros h0 [-> | (s & s' & _ & _ & ->)]; [reflexivity|].
    apply lookup_insert_ne. congruence. }
  repeat split.
  - intros data H. exact (Hins _ (enqueue_returns_inv _ _ _ _ _ H)).
  - intros x H. exact (Hins _ (dequeue_returns_inv _ _ _ _ _ H)).
  - intros H. exact (Hins _ (shutdown_returns_inv _ _ _ _ H)).
  - intros H. apply destroy_returns_inv in H as [-> | ->]; [reflexivity|].
    apply lookup_delete_ne. congruence.
  - intros b H. apply is_empty_returns_inv in H as ->. reflexivity.
  - intros b H. apply is_shutdown_returns_inv in H as ->. reflexivity.
  - intros r cap q0 s H Hlive.
    apply init_returns_inv in H as [_ [[_ ->] | [-> ->]]]; [exact Hlive|].
    rewrite lookup_insert_ne; [exact Hlive|].
    destruct (malloc_addr_fresh h) as [_ Hfree]. congruence.
Qed.

Lemma calls_touch_one_queue_witness :
  (<[2 := pushed (initial granted 1) 5]> pair_heap) !! 1 = pair_heap !! 1.
Proof.
  apply (proj1 (calls_touch_one_queue pair_heap
                  (<[2 := pushed (initial granted 1) 5]> pair_heap) 2 1
                  [MutexLock 2; CondSignal 2 not_empty; MutexUnlock 2]
                  ltac:(discriminate)) 5).
  vm_compute. reflexivity.
Defined.

(** X11.  On a reachable heap every live queue has its indices inside
    its buffer ([0 <= front < capacity], [-1 <= rear < capacity], buffer
    of [capacity] cells, [capacity] a positive [int]) and no call on it
    runs into undefined behaviour or an assertion: [enqueue] and
    [dequeue] return or block, the other four return. *)
Theorem reachable_memory_safe h q s data :
  reachable h -> h !! q = Some s ->
  (0 < capacity s <= INT_MAX /\
   Z.of_nat (length (buffer s)) = capacity s /\
   0 <= front s < capacity s /\ -1 <= rear s < capacity s) /\
  enqueue q data h <> Undefined /\ enqueue q data h <> Aborts /\
  dequeue q h <> Undefined /\ dequeue q h <> Aborts /\
  (exists h1 tr, queue_shutdown q h = Returns tt h1 tr) /\
  (exists h1 tr, queue_destroy q h = Returns tt h1 tr) /\
  (exists b tr, is_empty q h = Returns b h tr) /\
  (exists b tr, is_shutdown q h = Returns b h tr).
Proof.
  intros Hreach Hlive.
  pose proof (reachable_wf h q s Hreach Hlive) as Hwf.
  pose proof (reachable_not_null h q s Hreach Hlive) as Hq.
  split; [destruct Hwf; auto|].
  destruct (reachable_defined h q s data Hreach Hlive) as (H1 & H2 & H3 & H4).
  do 4 (split; [assumption|]).
  split; [eexists _, _; exact (shutdown_closes h q s Hq Hlive)|].
  split; [eexists _, _; exact (destroy_frees h q s Hq Hlive)|].
  split; [eexists _, _; exact (is_empty_reads h q s Hq Hlive)|].
  eexists _, _; exact (is_shutdown_reads h q s Hq Hlive).
Qed.

Lemma reachable_memory_safe_witness :
  enqueue 1 13 full_heap <> Undefined /\ dequeue 1 full_heap <> Undefined.
Proof.
  pose proof (reachable_memory_safe full_heap 1
                {| buffer := [11; 12]; capacity := 2; size := 2; front := 0;
                   rear := 1; is_shutdown_flag := false |} 13
                full_heap_reachable eq_refl) as (_ & H1 & _ & H3 & _).
  split; assumption.
Defined.

(** * The queue over its lifetime *)

Lemma moves_buffer_length s s' :
  moves s s' -> length (buffer s') = length (buffer s).
Proof. destruct 1; cbn; [apply length_insert | reflexivity | reflexivity]. Qed.

(** X12.  The capacity and the number of buffer cells of a queue never
    change: after any sequence of returning calls of any threads during
    which the queue stays live, both are what they were. *)
Theorem capacity_fixed h h' q s :
  h !! q = Some s -> rtc (step_keeping q) h h' ->
  exists s', h' !! q = Some s' /\
             capacity s' = capacity s /\
             length (buffer s') = length (buffer s).
Proof.
  intros Hlive Hrun.
  apply (kept_stable
           (fun s' => capacity s' = capacity s /\
                      length (buffer s') = length (buffer s))
           q) with (h := h) (s := s); [|exact Hrun|exact Hlive|auto].
  intros s1 s2 [Hc Hb] Hm. split.
  - rewrite (moves_capacity s1 s2 Hm). exact Hc.
  - rewrite (moves_buffer_length s1 s2 Hm). exact Hb.
Qed.

Lemma full_heap_after_dequeue :
  rtc (step_keeping 1) full_heap
    (<[1 := {| buffer := [11; 12]; capacity := 2; size := 1; front := 1;
               rear := 1; is_shutdown_flag := false |}]> ∅).
Proof.
  eapply rtc_once. split.
  - eapply (step_dequeue 1 full_heap 11). vm_compute. reflexivity.
  - eexists. reflexivity.
Qed.

Lemma capacity_fixed_witness :
  exists s',
    (<[1 := {| buffer := [11; 12]; capacity := 2; size := 1; front := 1;
               rear := 1; is_shutdown_flag := false |}]> ∅ : heap) !! 1
      = Some s' /\
    capacity s' = 2 /\ length (buffer s') = 2%nat.
Proof.
  apply (capacity_fixed full_heap _ 1
           {| buffer := [11; 12]; capacity := 2; size := 2; front := 0;
              rear := 1; is_shutdown_flag := false |}).
  - reflexivity.
  - exact full_heap_after_dequeue.
Defined.

(** X13.  The ring buffer behaves as a list, oldest item first, on every
    reachable heap and whatever was enqueued and dequeued before: an
    [enqueue] that finds room on a queue not shut down appends its item
    to that list, a [dequeue] on a non-empty queue returns the first item
    and leaves the rest, and the list is as long as [size]. *)
Theorem ring_buffer_is_fifo_list h q s :
  reachable h -> h !! q = Some s ->
  length (contents s) = Z.to_nat (size s) /\
  (forall data,
     is_shutdown_flag s = false -> size s < capacity s ->
     exists s' tr,
       enqueue q data h = Returns tt (<[q := s']> h) tr /\
       contents s' = contents s ++ [data]) /\
  (0 < size s ->
   exists x rest s' tr,
     contents s = x :: rest /\
     dequeue q h = Returns x (<[q := s']> h) tr /\
     contents s' = rest).
Proof.
  intros Hreach Hlive.
  pose proof (reachable_wf h q s Hreach Hlive) as Hwf.
  pose proof (reachable_not_null h q s Hreach Hlive) as Hq.
  split; [apply contents_length|]. split.
  - intros data Hflag Hlt. eexists _, _.
    split; [exact (enqueue_pushes h q s Hq Hlive data Hwf Hlt Hflag)|].
    exact (contents_pushed s data Hwf Hlt).
  - intros Hpos. eexists _, _, _, _.
    split; [exact (contents_popped s Hwf Hpos)|].
    split; [exact (dequeue_pops h q s Hq Hlive Hwf Hpos)|reflexivity].
Qed.

Lemma ring_buffer_is_fifo_list_witness :
  exists x rest s' tr,
    contents {| buffer := [11; 12]; capacity := 2; size := 2; front := 0;
                rear := 1; is_shutdown_flag := false |} = x :: rest /\
    dequeue 1 full_heap = Returns x (<[1 := s']> full_heap) tr /\
    contents s' = rest.
Proof.
  apply (proj2 (proj2 (ring_buffer_is_fifo_list full_heap 1
           {| buffer := [11; 12]; capacity := 2; size := 2; front := 0;
              rear := 1; is_shutdown_flag := false |}
           full_heap_reachable eq_refl))).
  reflexivity.
Defined.

(** X14.  Wake-ups follow the state change: an [enqueue] that returns
    either inserted one item and signalled [not_empty] once, or changed
    nothing and signalled nothing; a [dequeue] that returns either
    removed one item and signalled [not_full] once, or changed nothing,
    signalled nothing and returned [NULL]. *)
Theorem signal_iff_changed q h h' tr :
  (forall data, enqueue q data h = Returns tt h' tr ->
     (h' = h /\ forall c, CondSignal q c ∉ tr) \/
     (exists s s', h !! q = Some s /\ h' = <[q := s']> h /\
                   size s' = size s + 1 /\
                   tr = [MutexLock q; CondSignal q not_empty;
                         MutexUnlock q])) /\
  (forall x, dequeue q h = Returns x h' tr ->
     (h' = h /\ x = NULL /\ forall c, CondSignal q c ∉ tr) \/
     (exists s s', h !! q = Some s /\ h' = <[q := s']> h /\
                   size s' = size s - 1 /\
                   tr = [MutexLock q; CondSignal q not_full;
                         MutexUnlock q])).
Proof.
  assert (Hnil : forall c, CondSignal q c ∉ @nil event)
    by (intros c Hin; inversion Hin).
  assert (Hlu : forall c, CondSignal q c ∉ [MutexLock q; MutexUnlock q]).
  { intros c Hin.
    apply elem_of_cons in Hin as [Hin | Hin]; [discriminate|].
    apply elem_of_cons in Hin as [Hin | Hin]; [discriminate|].
    inversion Hin. }
  split.
  - intros data H. invert_call H;
      first [ left; split; [reflexivity | assumption]
            | right; eexists _, _; repeat split ].
  - intros x H. invert_call H;
      first [ left; split; [reflexivity | split; [reflexivity | assumption]]
            | right; eexists _, _; repeat split ].
Qed.

Lemma signal_iff_changed_witness :
  (<[1 := popped {| buffer := [11; 12]; capacity := 2; size := 2;
                    front := 0; rear := 1; is_shutdown_flag := false |}]>
     full_heap = full_heap /\
   11 = NULL /\
   forall c, CondSignal 1 c ∉ [MutexLock 1; CondSignal 1 not_full;
                               MutexUnlock 1]) \/
  (exists s s',
     full_heap !! 1 = Some s /\
     <[1 := popped {| buffer := [11; 12]; capacity := 2; size := 2;
                      front := 0; rear := 1; is_shutdown_flag := false |}]>
       full_heap = <[1 := s']> full_heap /\
     size s' = size s - 1 /\
     [MutexLock 1; CondSignal 1 not_full; MutexUnlock 1] =
     [MutexLock 1; CondSignal 1 not_full; MutexUnlock 1]).
Proof.
  apply (proj2 (signal_iff_changed 1 full_heap
                  (<[1 := popped {| buffer := [11; 12]; capacity := 2;
                                    size := 2; front := 0; rear := 1;
                                    is_shutdown_flag := false |}]> full_heap)
                  [MutexLock 1; CondSignal 1 not_full; MutexUnlock 1]) 11).
  vm_compute. reflexivity.
Defined.

(** X15.  Once the shutdown flag of a queue is set, nothing is ever added
    to it again: after any sequence of returning calls of any threads
    during which the queue stays live, the flag is still set and the
    buffered items are what is left of the items buffered at that time
    after dropping some number of the oldest. *)
Theorem shutdown_only_drains h h' q s :
  reachable h -> h !! q = Some s -> is_shutdown_flag s = true ->
  rtc (step_keeping q) h h' ->
  exists s' n,
    h' !! q = Some s' /\ is_shutdown_flag s' = true /\
    contents s' = drop n (contents s).
Proof.
  intros Hreach Hlive Hflag Hrun.
  pose proof (reachable_wf h q s Hreach Hlive) as Hwf.
  destruct (kept_stable
              (fun s' => wf s' /\ is_shutdown_flag s' = true /\
                         exists n, contents s' = drop n (contents s))
              q) with (h := h) (h' := h') (s := s)
    as (s' & Hlive' & _ & Hflag' & n & Hc).
  - intros s1 s2 (Hwf1 & Hflag1 & n & Hc1) Hm.
    split; [exact (moves_wf s1 s2 Hwf1 Hm)|].
    split; [exact (moves_flag s1 s2 Hflag1 Hm)|].
    destruct Hm as [s1 d Hf _ _ | s1 Hnz | s1].
    + congruence.
    + assert (Hpos : 0 < size s1)
        by (destruct Hwf1 as [_ _ [? _] _ _ _]; lia).
      exists (n + 1)%nat.
      rewrite <- drop_drop, <- Hc1, (contents_popped s1 Hwf1 Hpos).
      cbn [drop]. rewrite drop_0.
      destruct Hwf1 as [Hcap _ _ Hfr _ _].
      rewrite (rem_is_mod (capacity s1)) by lia. reflexivity.
    + exists n. exact Hc1.
  - exact Hrun.
  - exact Hlive.
  - split; [exact Hwf|]. split; [exact Hflag|]. exists 0%nat.
    rewrite drop_0. reflexivity.
  - exists s', n. auto.
Qed.

Lemma null_item_heap_after_dequeue :
  rtc (step_keeping 1) null_item_heap
    (<[1 := {| buffer := [NULL]; capacity := 1; size := 0; front := 0;
               rear := 0; is_shutdown_flag := true |}]> ∅).
Proof.
  eapply rtc_once. split.
  - eapply (step_dequeue 1 null_item_heap NULL). vm_compute. reflexivity.
  - eexists. reflexivity.
Qed.

Lemma shutdown_only_drains_witness :
  exists s' n,
    (<[1 := {| buffer := [NULL]; capacity := 1; size := 0; front := 0;
               rear := 0; is_shutdown_flag := true |}]> ∅ : heap) !! 1
      = Some s' /\
    is_shutdown_flag s' = true /\
    contents s' =
      drop n (contents {| buffer := [NULL]; capacity := 1; size := 1;
                          front := 0; rear := 0;
                          is_shutdown_flag := true |}).
Proof.
  apply (shutdown_only_drains null_item_heap _ 1
           {| buffer := [NULL]; capacity := 1; size := 1; front := 0;
              rear := 0; is_shutdown_flag := true |}).
  - exact null_item_heap_reachable.
  - reflexivity.
  - reflexivity.
  - exact null_item_heap_after_dequeue.
Defined.

Lemma enqueue_all_overfill items : forall h q s,
  q <> NULL -> h !! q = Some s -> wf s -> is_shutdown_flag s = false ->
  capacity s - size s < Z.of_nat (length items) ->
  exists s' tr,
    enqueue_all q items h = Waits q not_full (<[q := s']> h) tr /\
    contents s' =
      contents s ++ take (Z.to_nat (capacity s - size s)) items /\
    size s' = capacity s' /\ is_shutdown_flag s' = false.
Proof.
  induction items as [|x rest IH]; intros h q s Hq Hlive Hwf Hflag Hover.
  - destruct Hwf as [_ _ [_ Hle] _ _ _]. cbn [length] in Hover. lia.
  - cbn [length] in Hover.
    destruct (decide (size s = capacity s)) as [Hfull | Hroom].
    + exists s, [MutexLock q]. cbn [enqueue_all]. unfold bind.
      rewrite (enqueue_full_waits h q s Hq Hlive x Hfull Hflag).
      rewrite insert_id by exact Hlive.
      replace (capacity s - size s) with 0 by lia.
      cbn [Z.to_nat take]. rewrite app_nil_r. auto.
    + assert (Hlt : size s < capacity s)
        by (destruct Hwf as [_ _ [_ Hle] _ _ _]; lia).
      destruct (IH (<[q := pushed s x]> h) q (pushed s x))
        as (s' & tr & Hrun & Hc & Hsz & Hfl).
      * exact Hq.
      * apply lookup_insert_eq.
      * exact (moves_wf s _ Hwf (moves_pushed s x Hwf Hflag Hlt)).
      * exact Hflag.
      * cbn [pushed size capacity]. lia.
      * exists s',
          ([MutexLock q; CondSignal q not_empty; MutexUnlock q] ++ tr).
        cbn [enqueue_all].
        rewrite (bind_returns _ _ _ _ _ _
                   (enqueue_pushes h q s Hq Hlive x Hwf Hlt Hflag)).
        rewrite Hrun, insert_insert_eq.
        split; [reflexivity|]. split; [|auto].
        rewrite Hc, (contents_pushed s x Hwf Hlt). cbn [pushed size capacity].
        replace (Z.to_nat (capacity s - size s))
          with (S (Z.to_nat (capacity s - (size s + 1)))) by lia.
        cbn [take]. rewrite <- app_assoc. reflexivity.
Qed.

(** X16.  Enqueueing more items in a row than a queue that is not shut
    down has free slots inserts exactly as many as fit, in order, and
    then blocks on [not_full] with the queue full. *)
Theorem enqueue_all_blocks_when_full h q s items :
  reachable h -> h !! q = Some s -> is_shutdown_flag s = false ->
  capacity s - size s < Z.of_nat (length items) ->
  exists s' tr,
    enqueue_all q items h = Waits q not_full (<[q := s']> h) tr /\
    contents s' =
      contents s ++ take (Z.to_nat (capacity s - size s)) items /\
    size s' = capacity s'.
Proof.
  intros Hreach Hlive Hflag Hover.
  pose proof (reachable_wf h q s Hreach Hlive) as Hwf.
  pose proof (reachable_not_null h q s Hreach Hlive) as Hq.
  destruct (enqueue_all_overfill items h q s Hq Hlive Hwf Hflag Hover)
    as (s' & tr & Hrun & Hc & Hsz & _).
  exists s', tr. auto.
Qed.

Lemma enqueue_all_blocks_when_full_witness :
  exists s' tr,
    enqueue_all 1 [11; 12; 13] fresh_heap =
      Waits 1 not_full (<[1 := s']> fresh_heap) tr /\
    contents s' = contents (initial granted 2) ++ take 2 [11; 12; 13] /\
    size s' = capacity s'.
Proof.
  apply (enqueue_all_blocks_when_full fresh_heap 1 (initial granted 2)
           [11; 12; 13]).
  - exact fresh_heap_reachable.
  - reflexivity.
  - reflexivity.
  - vm_compute. reflexivity.
Defined.

(** * Lock discipline *)

Ltac not_in_trace :=
  let Hin := fresh "Hin" in
  intros Hin;
  repeat (apply elem_of_cons in Hin as [Hin | Hin]; [discriminate|]);
  inversion Hin.

(** X17.  No call returns with the mutex held and none takes it twice:
    on a handle other than [NULL], the trace of every returning
    [enqueue], [dequeue], [queue_shutdown], [is_empty] and [is_shutdown],
    early returns included, starts with the lock, ends with the unlock
    and has neither in between. *)
Theorem returns_unlocked q h h' tr :
  q <> NULL ->
  (forall data, enqueue q data h = Returns tt h' tr -> locked_once q tr) /\
  (forall x, dequeue q h = Returns x h' tr -> locked_once q tr) /\
  (queue_shutdown q h = Returns tt h' tr -> locked_once q tr) /\
  (forall b, is_empty q h = Returns b h' tr -> locked_once q tr) /\
  (forall b, is_shutdown q h = Returns b h' tr -> locked_once q tr).
Proof.
  intros Hq. apply Z.eqb_neq in Hq. unfold locked_once.
  split; [|split; [|split; [|split]]].
  - intros data H. invert_call H.
    + exists []. split; [reflexivity|]. split; not_in_trace.
    + exists [CondSignal q not_empty].
      split; [reflexivity|]. split; not_in_trace.
  - intros x H. invert_call H;
      first [ exists []; split; [reflexivity|]; split; not_in_trace
            | exists [CondSignal q not_full];
              split; [reflexivity|]; split; not_in_trace ].
  - intros H. invert_call H.
    exists [CondBroadcast q not_empty; CondBroadcast q not_full].
    split; [reflexivity|]. split; not_in_trace.
  - intros b H. invert_call H.
    exists []. split; [reflexivity|]. split; not_in_trace.
  - intros b H. invert_call H.
    exists []. split; [reflexivity|]. split; not_in_trace.
Qed.

Lemma returns_unlocked_witness :
  locked_once 1 [MutexLock 1; MutexUnlock 1].
Proof.
  apply (proj1 (returns_unlocked 1 null_item_heap null_item_heap
                  [MutexLock 1; MutexUnlock 1] ltac:(discriminate)) 42).
  vm_compute. reflexivity.
Defined.
